(** * NSandbox: the controller of the sandboxed interpreter process

    A shallow embedding of [app/server/lib/NSandbox.ts]: the pending-call
    registry, the dispatch of frames read from the sandbox, the handling of
    a closed pipe, the shutdown sequence with its kill timer, and the
    sanitising of [DOC_URL] in [NSandboxCreator.create].

    The controller is event driven and single threaded: every handler runs
    to completion.  A handler is a function on the record [NSandbox], which
    holds the private members of the class together with the part of the
    runtime the handlers act upon (the promises they settle, the timers they
    arm, the operations they apply to the pipe, the log). *)

From Stdlib Require Import ZArith NArith List String Ascii Bool Lia.
From stdpp Require Import base option list gmap pretty.

Import ListNotations.
Set Warnings "-register-all".
Local Open Scope Z_scope.
Local Open Scope list_scope.

(** ** JavaScript strings and values *)

(** A JavaScript string is a sequence of UTF-16 code units. *)
Definition jsstring : Type := list N.

(** The code units of an ASCII literal. *)
Definition js (s : string) : jsstring :=
  map N_of_ascii (list_ascii_of_string s).

(** The values that travel through the pipe, as [marshal.loads] hands them
    to the controller: [None] is [null], lists and tuples are arrays.
    Numbers are integers; [VUndefined] is what indexing past the end of an
    array yields.  A dictionary becomes an object, put together by
    [app/common/marshal]; an object is given by what the controller can
    observe of it: the value that its property [i] reads as, for an index
    [i], and the string it converts to, [None] when the conversion throws.
    It throws when neither [toString] nor [valueOf] is callable and yields
    a primitive: so for a dictionary with an entry [toString], whose value
    is data, while one that inherits both from [Object.prototype]
    converts to ["[object Object]"]. *)
Inductive value : Type :=
| VUndefined
| VNull
| VBool (b : bool)
| VNum (z : Z)
| VStr (s : jsstring)
| VArr (l : list value)
| VObj (item : nat -> value) (text : option jsstring).

(** *** The text of a number *)

Definition digits (z : Z) : jsstring := js (pretty z).

(** The Number nearest to a positive integer, ties going to the even
    significand; [None] is [Infinity].  A Number holds 53 significant
    bits. *)
Definition nearest_Number (z : Z) : option Z :=
  let q := Z.log2 z - 52 in
  if q <=? 0 then Some z
  else
    let m := Z.shiftr z q in
    let r := z - Z.shiftl m q in
    let half := Z.shiftl 1 (q - 1) in
    let m := if (half <? r) || ((r =? half) && Z.odd m) then m + 1 else m in
    if Z.shiftl 1 1024 <=? Z.shiftl m q then None else Some (Z.shiftl m q).

(** Whether the integer [c], read as a Number, is the Number [x]: it is
    nearer to [x] than to the Numbers next to it, or half way and the
    significand of [x] is even. *)
Definition reads_back (x c : Z) : bool :=
  let q := Z.log2 x - 52 in
  if q <=? 0 then c =? x
  else
    let m := Z.shiftr x q in
    let below := if m =? Z.shiftl 1 52 then Z.shiftl 1 (q - 1) else Z.shiftl 1 q in
    let above := Z.shiftl 1 q in
    if Z.even m then (2 * x - below <=? 2 * c) && (2 * c <=? 2 * x + above)
    else (2 * x - below <? 2 * c) && (2 * c <? 2 * x + above).

(** The integer with the fewest significant digits that reads back as
    [x]: a multiple of the greatest power of ten next to [x] that does,
    the nearer one if there are two, the one with the even last digit if
    they are as near. *)
Fixpoint shortest (x : Z) (j : nat) : Z :=
  let p := 10 ^ Z.of_nat j in
  let c1 := x / p * p in
  let c2 := c1 + p in
  let ok1 := (0 <? c1) && reads_back x c1 in
  let ok2 := reads_back x c2 in
  if ok1 && ok2 then
    if x - c1 <? c2 - x then c1
    else if c2 - x <? x - c1 then c2
    else if Z.even (c1 / p) then c1 else c2
  else if ok1 then c1
  else if ok2 then c2
  else match j with
       | O => x
       | S j' => shortest x j'
       end.

Fixpoint without_leading_zeros (l : jsstring) : jsstring :=
  match l with
  | c :: l' => if (c =? 48)%N then without_leading_zeros l' else l
  | [] => []
  end.

(** [Number::toString] of a positive integer: the significant digits and
    the zeros after them when they are 21 at most, the exponent form
    otherwise. *)
Definition positive_Number_toString (z : Z) : jsstring :=
  match nearest_Number z with
  | None => js "Infinity"
  | Some x =>
      let c := shortest x (length (digits x)) in
      let n := length (digits c) in
      if (n <=? 21)%nat then digits c
      else
        match rev (without_leading_zeros (rev (digits c))) with
        | [] => []
        | [d] => d :: js "e+" ++ digits (Z.of_nat n - 1)
        | d :: ds => d :: js "." ++ ds ++ js "e+" ++ digits (Z.of_nat n - 1)
        end
  end.

(** [Number::toString] of the Number with the value [z]; for an integer
    that no Number holds, of the nearest Number, the one that the
    integer's literal denotes. *)
Definition Number_toString (z : Z) : jsstring :=
  match z with
  | 0 => js "0"
  | Zpos _ => positive_Number_toString z
  | Zneg _ => js "-" ++ positive_Number_toString (- z)
  end.

(** *** Conversion to a string *)

(** [Array.prototype.join(",")]: [null] and [undefined] elements are
    empty, and an element that cannot be converted makes the join throw. *)
Definition join_with (elem : value -> option jsstring) : list value -> option jsstring :=
  fix join (l : list value) : option jsstring :=
    match l with
    | [] => Some []
    | [x] => elem x
    | x :: l' =>
        match elem x, join l' with
        | Some s, Some r => Some (s ++ js "," ++ r)
        | _, _ => None
        end
    end.

(** [String(v)], as string concatenation, template literals and property
    keys compute it; [None] stands for the [TypeError] thrown when an
    object cannot be converted to a primitive value. *)
Fixpoint to_string (v : value) : option jsstring :=
  match v with
  | VUndefined => Some (js "undefined")
  | VNull => Some (js "null")
  | VBool true => Some (js "true")
  | VBool false => Some (js "false")
  | VNum z => Some (Number_toString z)
  | VStr s => Some s
  | VArr l =>
      join_with (fun x => match x with
                          | VUndefined | VNull => Some []
                          | _ => to_string x
                          end) l
  | VObj _ text => text
  end.

(** [Array.isArray]. *)
Definition isArray (v : value) : bool :=
  match v with VArr _ => true | _ => false end.

(** A primitive value; arrays and objects are compared by identity. *)
Definition is_primitive (v : value) : bool :=
  match v with VArr _ | VObj _ _ => false | _ => true end.

Definition jsstring_eqb (s t : jsstring) : bool :=
  bool_decide (s = t).

(** [a === b] where [a] was decoded from the pipe: primitives compare by
    value, and a freshly decoded array or object is identical to nothing
    else. *)
Definition strict_eq (a b : value) : bool :=
  match a, b with
  | VUndefined, VUndefined => true
  | VNull, VNull => true
  | VBool x, VBool y => Bool.eqb x y
  | VNum x, VNum y => Z.eqb x y
  | VStr x, VStr y => jsstring_eqb x y
  | _, _ => false
  end.

(** [v[i]] for an index [i]: [None] stands for the [TypeError] that reading
    a property of [null] or [undefined] throws. *)
Definition js_index (v : value) (i : nat) : option value :=
  match v with
  | VUndefined | VNull => None
  | VArr l => Some (nth i l VUndefined)
  | VStr s => Some (match nth_error s i with
                    | Some c => VStr [c]
                    | None => VUndefined
                    end)
  | VObj item _ => Some (item i)
  | VBool _ | VNum _ => Some VUndefined
  end.

(** ** The table of exported functions *)

(** How a call of an exported function ends: with a value, or by throwing
    [err].  [Throws d] carries what [err.toString()] returns;
    [ThrowsUnprintable f] stands for an [err] of which [toString] cannot be
    called, such as [null] and [undefined], and carries the description of
    the [TypeError] that the attempt throws.  A function that returns a
    promise is represented by the way the promise settles. *)
Inductive completion : Type :=
| Returns (v : value)
| Throws (description : value)
| ThrowsUnprintable (failure : jsstring).

Definition SandboxMethod : Type := list value -> completion.

(** What [obj[key]] evaluates to on the table: nothing, a function, or an
    object that is not callable. *)
Inductive jsprop : Type :=
| PUndefined
| PFunction (f : SandboxMethod)
| PObject.

(** The table is a JavaScript object ([{[name: string]: SandboxMethod}]):
    its own properties and what it inherits through its prototype. *)
Record JSObject : Type := mkJSObject {
  own : gmap jsstring SandboxMethod;
  inherited : jsstring -> jsprop
}.

(** [obj[key]]: an own property first, then the prototype chain. *)
Definition get_property (obj : JSObject) (key : jsstring) : jsprop :=
  match own obj !! key with
  | Some f => PFunction f
  | None => inherited obj key
  end.

Definition TypeError_nullish_this : completion :=
  Throws (VStr (js "TypeError: Cannot convert undefined or null to object")).

Definition TypeError_not_primitive : jsstring :=
  js "TypeError: Cannot convert object to primitive value".

(** A member that converts its first argument to a property key before
    it looks at its receiver. *)
Definition key_then_receiver (args : list value) : completion :=
  match to_string (nth 0 args VUndefined) with
  | Some _ => TypeError_nullish_this
  | None => Throws (VStr TypeError_not_primitive)
  end.

(** The members of [Object.prototype], as the dispatcher calls them: with
    no receiver ([func(...args)]).  A boxed primitive is represented by
    the primitive. *)
Definition Object_prototype (key : jsstring) : jsprop :=
  if jsstring_eqb key (js "toString") then
    PFunction (fun _ => Returns (VStr (js "[object Undefined]")))
  else if jsstring_eqb key (js "toLocaleString") then
    PFunction (fun _ =>
      Throws (VStr (js "TypeError: Object.prototype.toLocaleString called on null or undefined")))
  else if jsstring_eqb key (js "constructor") then
    PFunction (fun args => Returns (match args with
                                    | [] | VUndefined :: _ | VNull :: _ =>
                                        VObj (fun _ => VUndefined) (Some (js "[object Object]"))
                                    | v :: _ => v
                                    end))
  else if jsstring_eqb key (js "isPrototypeOf") then
    PFunction (fun args => match args with
                           | VArr _ :: _ | VObj _ _ :: _ => TypeError_nullish_this
                           | _ => Returns (VBool false)
                           end)
  else if existsb (jsstring_eqb key) [js "hasOwnProperty"; js "propertyIsEnumerable"] then
    PFunction key_then_receiver
  else if existsb (jsstring_eqb key)
            [js "valueOf"; js "__defineGetter__"; js "__defineSetter__";
             js "__lookupGetter__"; js "__lookupSetter__"] then
    PFunction (fun _ => TypeError_nullish_this)
  else if jsstring_eqb key (js "__proto__") then PObject
  else PUndefined.

(** An object literal with the given own properties. *)
Definition object_literal (props : gmap jsstring SandboxMethod) : JSObject :=
  mkJSObject props Object_prototype.

(** ** The controller *)

(** Errors thrown inside the controller. *)
Inductive error : Type :=
| SandboxError (message : value)
| JSError (description : jsstring).

(** How a promise is settled. *)
Inductive settlement : Type :=
| Resolved (v : value)
| Rejected (e : error).

(** What the controller does to [_streamToSandbox]: [write] the buffer that
    encodes a frame, or [end] the stream. *)
Inductive stream_op : Type :=
| SWrite (msgCode data : value)
| SEnd.

Inductive signal : Type := SIGKILL.

Inductive log_entry : Type :=
| rawDebug (message : jsstring)
| rawWarn (message : jsstring)
| rawError (message : jsstring).

(** One call of [shutdown()]: its kill timer, and the promise it awaits,
    which the listeners it registers on [childProc] settle. *)
Record shutdown_call : Type := mkShutdownCall {
  timeoutID : nat;
  awaited : option settlement
}.

Record NSandbox : Type := mkNSandbox {
  _exportedFunctions : JSObject;
  (** The [ResolveRejectPair]s, each named by the promise it settles. *)
  _pendingReads : list nat;
  _isReadClosed : bool;
  _isWriteClosed : bool;
  (** The number of [stop()] calls the attached [Throttle] has received. *)
  _throttle : option nat;
  _streamToSandbox : list stream_op;
  (** Promises created by [_pyCallWait], and every call of one of their
      [resolve] or [reject] functions, oldest first. *)
  promises : nat;
  settlements : list (nat * settlement);
  (** Calls from the sandbox whose answer is still to be sent. *)
  jobs : list (value * list value);
  (** Pending timers with their delay in milliseconds. *)
  timers : list (nat * Z);
  nextTimer : nat;
  (** Signals sent with [childProc.kill]. *)
  kills : list signal;
  (** The [shutdown()] calls so far, and each return or throw of one. *)
  shutdowns : list shutdown_call;
  shutdownResults : list (nat * settlement);
  cleanupHandler : bool;
  logged : list log_entry
}.

(** Assignment to one member. *)
Definition set_pendingReads (x : list nat) (st : NSandbox) : NSandbox :=
  mkNSandbox (_exportedFunctions st) x (_isReadClosed st) (_isWriteClosed st)
    (_throttle st) (_streamToSandbox st) (promises st) (settlements st)
    (jobs st) (timers st) (nextTimer st) (kills st) (shutdowns st)
    (shutdownResults st) (cleanupHandler st) (logged st).
Definition set_isReadClosed (x : bool) (st : NSandbox) : NSandbox :=
  mkNSandbox (_exportedFunctions st) (_pendingReads st) x (_isWriteClosed st)
    (_throttle st) (_streamToSandbox st) (promises st) (settlements st)
    (jobs st) (timers st) (nextTimer st) (kills st) (shutdowns st)
    (shutdownResults st) (cleanupHandler st) (logged st).
Definition set_isWriteClosed (x : bool) (st : NSandbox) : NSandbox :=
  mkNSandbox (_exportedFunctions st) (_pendingReads st) (_isReadClosed st) x
    (_throttle st) (_streamToSandbox st) (promises st) (settlements st)
    (jobs st) (timers st) (nextTimer st) (kills st) (shutdowns st)
    (shutdownResults st) (cleanupHandler st) (logged st).
Definition set_throttle (x : option nat) (st : NSandbox) : NSandbox :=
  mkNSandbox (_exportedFunctions st) (_pendingReads st) (_isReadClosed st)
    (_isWriteClosed st) x (_streamToSandbox st) (promises st) (settlements st)
    (jobs st) (timers st) (nextTimer st) (kills st) (shutdowns st)
    (shutdownResults st) (cleanupHandler st) (logged st).
Definition set_streamToSandbox (x : list stream_op) (st : NSandbox) : NSandbox :=
  mkNSandbox (_exportedFunctions st) (_pendingReads st) (_isReadClosed st)
    (_isWriteClosed st) (_throttle st) x (promises st) (settlements st)
    (jobs st) (timers st) (nextTimer st) (kills st) (shutdowns st)
    (shutdownResults st) (cleanupHandler st) (logged st).
Definition set_promises (x : nat) (st : NSandbox) : NSandbox :=
  mkNSandbox (_exportedFunctions st) (_pendingReads st) (_isReadClosed st)
    (_isWriteClosed st) (_throttle st) (_streamToSandbox st) x
    (settlements st) (jobs st) (timers st) (nextTimer st) (kills st)
    (shutdowns st) (shutdownResults st) (cleanupHandler st) (logged st).
Definition set_settlements (x : list (nat * settlement)) (st : NSandbox) : NSandbox :=
  mkNSandbox (_exportedFunctions st) (_pendingReads st) (_isReadClosed st)
    (_isWriteClosed st) (_throttle st) (_streamToSandbox st) (promises st) x
    (jobs st) (timers st) (nextTimer st) (kills st) (shutdowns st)
    (shutdownResults st) (cleanupHandler st) (logged st).
Definition set_jobs (x : list (value * list value)) (st : NSandbox) : NSandbox :=
  mkNSandbox (_exportedFunctions st) (_pendingReads st) (_isReadClosed st)
    (_isWriteClosed st) (_throttle st) (_streamToSandbox st) (promises st)
    (settlements st) x (timers st) (nextTimer st) (kills st) (shutdowns st)
    (shutdownResults st) (cleanupHandler st) (logged st).
Definition set_timers (x : list (nat * Z)) (st : NSandbox) : NSandbox :=
  mkNSandbox (_exportedFunctions st) (_pendingReads st) (_isReadClosed st)
    (_isWriteClosed st) (_throttle st) (_streamToSandbox st) (promises st)
    (settlements st) (jobs st) x (nextTimer st) (kills st) (shutdowns st)
    (shutdownResults st) (cleanupHandler st) (logged st).
Definition set_nextTimer (x : nat) (st : NSandbox) : NSandbox :=
  mkNSandbox (_exportedFunctions st) (_pendingReads st) (_isReadClosed st)
    (_isWriteClosed st) (_throttle st) (_streamToSandbox st) (promises st)
    (settlements st) (jobs st) (timers st) x (kills st) (shutdowns st)
    (shutdownResults st) (cleanupHandler st) (logged st).
Definition set_kills (x : list signal) (st : NSandbox) : NSandbox :=
  mkNSandbox (_exportedFunctions st) (_pendingReads st) (_isReadClosed st)
    (_isWriteClosed st) (_throttle st) (_streamToSandbox st) (promises st)
    (settlements st) (jobs st) (timers st) (nextTimer st) x (shutdowns st)
    (shutdownResults st) (cleanupHandler st) (logged st).
Definition set_shutdowns (x : list shutdown_call) (st : NSandbox) : NSandbox :=
  mkNSandbox (_exportedFunctions st) (_pendingReads st) (_isReadClosed st)
    (_isWriteClosed st) (_throttle st) (_streamToSandbox st) (promises st)
    (settlements st) (jobs st) (timers st) (nextTimer st) (kills st) x
    (shutdownResults st) (cleanupHandler st) (logged st).
Definition set_shutdownResults (x : list (nat * settlement)) (st : NSandbox) : NSandbox :=
  mkNSandbox (_exportedFunctions st) (_pendingReads st) (_isReadClosed st)
    (_isWriteClosed st) (_throttle st) (_streamToSandbox st) (promises st)
    (settlements st) (jobs st) (timers st) (nextTimer st) (kills st)
    (shutdowns st) x (cleanupHandler st) (logged st).
Definition set_cleanupHandler (x : bool) (st : NSandbox) : NSandbox :=
  mkNSandbox (_exportedFunctions st) (_pendingReads st) (_isReadClosed st)
    (_isWriteClosed st) (_throttle st) (_streamToSandbox st) (promises st)
    (settlements st) (jobs st) (timers st) (nextTimer st) (kills st)
    (shutdowns st) (shutdownResults st) x (logged st).
Definition set_logged (x : list log_entry) (st : NSandbox) : NSandbox :=
  mkNSandbox (_exportedFunctions st) (_pendingReads st) (_isReadClosed st)
    (_isWriteClosed st) (_throttle st) (_streamToSandbox st) (promises st)
    (settlements st) (jobs st) (timers st) (nextTimer st) (kills st)
    (shutdowns st) (shutdownResults st) (cleanupHandler st) x.

(** ** Handlers that may throw *)

(** A handler ends normally or by throwing; either way it leaves a state:
    what it assigned before a [throw] stays assigned. *)
Inductive outcome (A : Type) : Type :=
| Done (a : A) (st : NSandbox)
| Thrown (e : error) (st : NSandbox).
Arguments Done {A} a st.
Arguments Thrown {A} e st.

Definition M (A : Type) : Type := NSandbox -> outcome A.

Definition ret {A} (a : A) : M A := fun st => Done a st.

Definition throw {A} (e : error) : M A := fun st => Thrown e st.

Definition bind {A B} (c : M A) (k : A -> M B) : M B :=
  fun st => match c st with
            | Done a st' => k a st'
            | Thrown e st' => Thrown e st'
            end.

(** [try { c } catch (e) { h(e) }]. *)
Definition try_catch {A} (c : M A) (h : error -> M A) : M A :=
  fun st => match c st with
            | Done a st' => Done a st'
            | Thrown e st' => h e st'
            end.

(** A statement that cannot throw. *)
Definition exec (f : NSandbox -> NSandbox) : M unit :=
  fun st => Done tt (f st).

Definition state_of {A} (o : outcome A) : NSandbox :=
  match o with Done _ st | Thrown _ st => st end.

Definition has_thrown {A} (o : outcome A) : bool :=
  match o with Done _ _ => false | Thrown _ _ => true end.

Declare Scope sandbox_scope.
Delimit Scope sandbox_scope with sandbox.
Notation "x <- c ;; k" := (bind c (fun x => k))
  (at level 100, c at next level, right associativity) : sandbox_scope.
Notation "c ;; k" := (bind c (fun _ => k))
  (at level 100, right associativity) : sandbox_scope.
Local Open Scope sandbox_scope.

(** [for (const x of l) body(x)]. *)
Fixpoint for_each {A} (body : A -> M unit) (l : list A) : M unit :=
  match l with
  | [] => ret tt
  | x :: l' => body x ;; for_each body l'
  end.

(** ** The methods of [NSandbox] *)

Definition log (e : log_entry) (st : NSandbox) : NSandbox :=
  set_logged (logged st ++ [e]) st.

(** [if (this._throttle) { this._throttle.stop(); }] *)
Definition stop_throttle (st : NSandbox) : NSandbox :=
  set_throttle (S <$> _throttle st) st.

Definition _close (st : NSandbox) : NSandbox :=
  let st := stop_throttle st in
  if _isWriteClosed st then st
  else set_isWriteClosed true
         (set_streamToSandbox (_streamToSandbox st ++ [SEnd]) st).

(** The error of a template literal or a concatenation whose operand
    cannot be converted. *)
Definition Cannot_convert : error := JSError TypeError_not_primitive.

(** The message is put together after [_close()]: when an operand of the
    template literal cannot be converted, the handler throws there. *)
Definition _onExit (code signal : value) : M unit :=
  fun st =>
    let st := _close st in
    match to_string code, to_string signal with
    | Some code, Some signal =>
        Done tt (log (rawDebug (js "Sandbox exited with code " ++ code ++
                                js " signal " ++ signal)) st)
    | _, _ => Thrown Cannot_convert st
    end.

Definition _onError (err : jsstring) (st : NSandbox) : NSandbox :=
  log (rawWarn (js "Sandbox could not be spawned: " ++ err)) (_close st).

Definition PipeToSandbox_closed : error :=
  SandboxError (VStr (js "PipeToSandbox is closed")).

Definition PipeFromSandbox_closed : error :=
  SandboxError (VStr (js "PipeFromSandbox is closed")).

(** The frame is written as one buffer.  The encoding itself belongs to
    [app/common/marshal]; the write is recorded by the frame it carries. *)
Definition _sendData (msgCode data : value) : M unit :=
  fun st =>
    if _isReadClosed st then Thrown PipeToSandbox_closed st
    else Done tt (set_streamToSandbox
                    (_streamToSandbox st ++ [SWrite msgCode data]) st).

(** The executor of the new promise pushes its pair at once.  The timing
    line of the [finally] block depends on the clock and is left out. *)
Definition _pyCallWait (funcName : jsstring) : M nat :=
  fun st =>
    let p := promises st in
    Done p (set_pendingReads (_pendingReads st ++ [p])
              (set_promises (S p) st)).

(** [resolvePair[1](err)] and [resolvePair[0](data)]. *)
Definition settle (p : nat) (s : settlement) (st : NSandbox) : NSandbox :=
  set_settlements (settlements st ++ [(p, s)]) st.

Definition _onSandboxClose (st : NSandbox) : NSandbox :=
  let st := stop_throttle st in
  let st := set_isReadClosed true st in
  let err := PipeFromSandbox_closed in
  let st := fold_left (fun st resolvePair => settle resolvePair (Rejected err) st)
                      (_pendingReads st) st in
  set_pendingReads [] st.

(** [setTimeout], [clearTimeout] and the firing of a timer. *)
Definition setTimeout (delay : Z) (st : NSandbox) : nat * NSandbox :=
  let id := nextTimer st in
  (id, set_nextTimer (S id) (set_timers (timers st ++ [(id, delay)]) st)).

Definition clearTimeout (id : nat) (st : NSandbox) : NSandbox :=
  set_timers (filter (fun t => fst t ≠ id) (timers st)) st.

Definition timer_pending (id : nat) (st : NSandbox) : bool :=
  bool_decide (id ∈ map fst (timers st)).

(** The callback of the kill timer. *)
Definition kill_callback (st : NSandbox) : NSandbox :=
  let st := log (rawWarn (js "Sandbox sending SIGKILL")) st in
  set_kills (kills st ++ [SIGKILL]) st.

Definition onTimeout (id : nat) (st : NSandbox) : NSandbox :=
  if timer_pending id st then kill_callback (clearTimeout id st) else st.

(** The elements of an array. *)
Definition elements (v : value) : list value :=
  match v with VArr l => l | _ => [] end.

(** The promise a [shutdown()] call awaits is settled by the first of
    [resolve] and [reject] to be called; later calls do nothing.  When it
    settles, the call resumes after its [await]: a resolved promise lets
    it clear its timer and return, a rejected one makes it throw before
    [clearTimeout].  The resumption touches nothing a listener reads, so
    it is applied together with the settling. *)
Definition settle_shutdown (i : nat) (s : settlement) (st : NSandbox) : NSandbox :=
  match shutdowns st !! i with
  | Some call =>
      match awaited call with
      | Some _ => st
      | None =>
          let st := set_shutdowns
                      (<[i := mkShutdownCall (timeoutID call) (Some s)]> (shutdowns st)) st in
          let st := match s with
                    | Resolved _ => clearTimeout (timeoutID call) st
                    | Rejected _ => st
                    end in
          set_shutdownResults (shutdownResults st ++ [(i, s)]) st
      end
  | None => st
  end.

(** The listeners that the [shutdown()] calls have registered on
    [childProc], called in the order of their registration. *)
Definition notify_shutdowns (s : settlement) (st : NSandbox) : NSandbox :=
  fold_left (fun st i => settle_shutdown i s st)
            (seq 0 (length (shutdowns st))) st.

(** The kill timer's delay in milliseconds. *)
Definition KILL_DELAY : Z := 1000.

(** [shutdown()], up to its [await].  The call is named by its position in
    [shutdowns]; its entry there stands for the three listeners too. *)
Definition shutdown (st : NSandbox) : NSandbox :=
  let st := log (rawDebug (js "Sandbox shutdown starting")) st in
  let st := set_cleanupHandler false st in
  let '(timeoutID, st) := setTimeout KILL_DELAY st in
  let i := length (shutdowns st) in
  let st := set_shutdowns (shutdowns st ++ [mkShutdownCall timeoutID None]) st in
  let st := if _isWriteClosed st then settle_shutdown i (Resolved VUndefined) st else st in
  _close st.

(** The events of [childProc]: the constructor's listener runs first, and
    a listener that throws keeps the later ones from being called. *)
Definition on_child_close (code signal : value) (st : NSandbox) : NSandbox :=
  match _onExit code signal st with
  | Done _ st => notify_shutdowns (Resolved code) st
  | Thrown _ st => st
  end.

Definition on_child_exit (code signal : value) (st : NSandbox) : NSandbox :=
  notify_shutdowns (Resolved code) st.

Definition on_child_error (err : jsstring) (st : NSandbox) : NSandbox :=
  notify_shutdowns (Rejected (JSError err)) (_onError err st).

(** The events of the two pipes. *)
Definition on_read_end (st : NSandbox) : NSandbox := _onSandboxClose st.

Definition on_read_error (err : jsstring) (st : NSandbox) : NSandbox :=
  _onSandboxClose (log (rawError (js "Sandbox error reading: " ++ err)) st).

Definition on_write_error (err : jsstring) (st : NSandbox) : NSandbox :=
  if _isWriteClosed st then st
  else log (rawError (js "Sandbox error writing: " ++ err)) st.

(** The constructor: [options.exports || {}], and a [Throttle] when
    [GRIST_THROTTLE_CPU] is set.  Recording of raw buffers is left out. *)
Definition new_NSandbox (exports : option JSObject) (GRIST_THROTTLE_CPU : bool) : NSandbox :=
  {| _exportedFunctions := default (object_literal ∅) exports;
     _pendingReads := [];
     _isReadClosed := false;
     _isWriteClosed := false;
     _throttle := if GRIST_THROTTLE_CPU then Some 0%nat else None;
     _streamToSandbox := [];
     promises := 0;
     settlements := [];
     jobs := [];
     timers := [];
     nextTimer := 0;
     kills := [];
     shutdowns := [];
     shutdownResults := [];
     cleanupHandler := true;
     logged := [rawDebug (js "Sandbox started")] |}.

Section Protocol.

(** The message codes [sandboxUtil.CALL], [sandboxUtil.DATA] and
    [sandboxUtil.EXC], and the [toString] of a controller error. *)
Variables CALL DATA EXC : value.
Variable error_toString : error -> jsstring.

(** The three codes are primitive values, no two of them the same
    ([type MsgCode = null | true | false]). *)
Definition codes_distinct : bool :=
  is_primitive CALL && is_primitive DATA && is_primitive EXC &&
  negb (strict_eq CALL DATA) && negb (strict_eq CALL EXC) &&
  negb (strict_eq DATA EXC).

Definition pyCall (funcName : jsstring) (varArgs : list value) : M nat :=
  _sendData CALL (VArr (VStr funcName :: varArgs)) ;;
  _pyCallWait funcName.

(** The chain of promise reactions that answers a call from the sandbox,
    run when the exported function has completed.  The name is converted
    to a property key for the lookup, and again for the message of the
    error when the lookup finds nothing. *)
Definition call_exported (fname : value) (args : list value) (st : NSandbox) : completion :=
  match to_string fname with
  | None => Throws (VStr TypeError_not_primitive)
  | Some name =>
      match get_property (_exportedFunctions st) name with
      | PUndefined => Throws (VStr (js "Error: No such exported function: " ++ name))
      | PFunction func => func args
      | PObject => Throws (VStr (js "TypeError: func is not a function"))
      end
  end.

Definition answer_call (fname : value) (args : list value) : M unit :=
  try_catch
    (fun st =>
       match call_exported fname args st with
       | Returns ret => _sendData DATA ret st
       | Throws description => _sendData EXC description st
       | ThrowsUnprintable failure => Thrown (JSError failure) st
       end)
    (fun err =>
       exec (log (rawDebug (js "Sandbox sending response failed: " ++ error_toString err)))).

(** The answer to the [i]th of the calls that wait for theirs is sent.
    Each call has a promise chain of its own, which gets to the answer
    when the exported function has completed: the answers are sent in no
    fixed order. *)
Definition run_job (i : nat) (st : NSandbox) : outcome unit :=
  match jobs st !! i with
  | Some (fname, args) => answer_call fname args (set_jobs (delete i (jobs st)) st)
  | None => Done tt st
  end.

(** All queued answers are sent in the order of the calls, as they are
    when every exported function completes at once. *)
Definition run_jobs (st : NSandbox) : outcome unit :=
  for_each (fun job => answer_call (fst job) (snd job)) (jobs st) (set_jobs [] st).

(** The message of the debug line is put together before anything is
    logged or queued: a name that cannot be converted makes the handler
    throw. *)
Definition _onSandboxMsg (msgCode data : value) : M unit :=
  if strict_eq msgCode CALL then
    if negb (isArray data) || Nat.eqb (length (elements data)) 0 then
      exec (log (rawWarn (js "Sandbox invalid call from the sandbox")))
    else
      let fname := nth 0 (elements data) VUndefined in
      let args := skipn 1 (elements data) in
      match to_string fname with
      | None => throw Cannot_convert
      | Some name =>
          exec (log (rawDebug (js "Sandbox got call to " ++ name ++ js " (" ++
                               js (pretty (length args)) ++ js " args)"))) ;;
          exec (fun st => set_jobs (jobs st ++ [(fname, args)]) st)
      end
  else
    fun st =>
      match _pendingReads st with
      | resolvePair :: rest =>
          let st := set_pendingReads rest st in
          if strict_eq msgCode EXC then
            Done tt (settle resolvePair (Rejected (SandboxError data)) st)
          else if strict_eq msgCode DATA then
            Done tt (settle resolvePair (Resolved data) st)
          else
            Done tt (log (rawWarn (js "Sandbox invalid message from sandbox")) st)
      | [] => Done tt st
      end.

(** [values] are the values the unmarshaller has completed with this
    chunk of bytes, in order. *)
Definition _onSandboxData (values : list value) : M unit :=
  for_each (fun value =>
              match js_index value 0, js_index value 1 with
              | Some msgCode, Some data => _onSandboxMsg msgCode data
              | _, _ => throw (JSError (js "TypeError: Cannot read properties of null"))
              end) values.

(** ** The event loop *)

Inductive event : Type :=
| EvPyCall (funcName : jsstring) (varArgs : list value)
| EvShutdown
| EvData (values : list value)
| EvReadEnd
| EvReadError (err : jsstring)
| EvWriteError (err : jsstring)
| EvAnswer (i : nat)
| EvTimeout (id : nat)
| EvChildClose (code signal : value)
| EvChildExit (code signal : value)
| EvChildError (err : jsstring).

(** One turn of the loop.  An exception leaves the handler; the state is
    as the handler left it. *)
Definition step (st : NSandbox) (ev : event) : NSandbox :=
  match ev with
  | EvPyCall funcName varArgs => state_of (pyCall funcName varArgs st)
  | EvShutdown => shutdown st
  | EvData values => state_of (_onSandboxData values st)
  | EvReadEnd => on_read_end st
  | EvReadError err => on_read_error err st
  | EvWriteError err => on_write_error err st
  | EvAnswer i => state_of (run_job i st)
  | EvTimeout id => onTimeout id st
  | EvChildClose code signal => on_child_close code signal st
  | EvChildExit code signal => on_child_exit code signal st
  | EvChildError err => on_child_error err st
  end.

Definition run (evs : list event) (st : NSandbox) : NSandbox :=
  fold_left step evs st.

End Protocol.

(** The values of [type MsgCode = null | true | false], taken in this
    order for [CALL], [DATA] and [EXC] when a handler is run on a concrete
    input, and a rendering of controller errors for the log. *)
Definition MsgCode_CALL : value := VNull.
Definition MsgCode_DATA : value := VBool true.
Definition MsgCode_EXC : value := VBool false.

Definition describe_error (e : error) : jsstring :=
  match e with
  | SandboxError message => js "Error: " ++ default [] (to_string message)
  | JSError description => description
  end.

(** ** Scenarios *)

(** A frame as the unmarshaller delivers it: the pair of code and payload. *)
Definition frame_value (frame : value * value) : value :=
  VArr [fst frame; snd frame].

(** Several calls of [pyCall] in a row; the promises they return. *)
Fixpoint pyCalls (CALL : value) (calls : list (jsstring * list value)) : M (list nat) :=
  match calls with
  | [] => ret []
  | (funcName, varArgs) :: calls' =>
      p <- pyCall CALL funcName varArgs ;;
      ps <- pyCalls CALL calls' ;;
      ret (p :: ps)
  end.

(** How the promise of a call is settled by the frame that answers it. *)
Definition response (DATA : value) (frame : value * value) : settlement :=
  if strict_eq (fst frame) DATA then Resolved (snd frame)
  else Rejected (SandboxError (snd frame)).

(** The number of times the outbound stream was ended. *)
Definition is_end (op : stream_op) : bool :=
  match op with SEnd => true | SWrite _ _ => false end.

Definition ends (ops : list stream_op) : nat :=
  length (List.filter is_end ops).

(** The frames written to the outbound stream. *)
Definition written (ops : list stream_op) : list (value * value) :=
  omap (fun op => match op with
                  | SWrite msgCode data => Some (msgCode, data)
                  | SEnd => None
                  end) ops.

(** The process terminates: Node emits ['exit'], then ['close']. *)
Definition child_exits (code signal : value) (st : NSandbox) : NSandbox :=
  on_child_close code signal (on_child_exit code signal st).


(** ** NSandboxCreator *)

Module NSandboxCreator.

Inductive flavor : Type := pynbox | unsandboxed.

Record ISandboxCreationOptions : Type := {
  entryPoint : option jsstring;
  comment : option jsstring;
  sandboxMount : option jsstring;
  importMount : option jsstring;
  docUrl : option jsstring;
  logCalls : option bool;
  logTimes : option bool
}.

Record ISandboxOptions : Type := {
  args : list jsstring;
  opt_logCalls : option bool;
  opt_logTimes : option bool;
  unsilenceLog : option bool;
  selLdrArgs : list jsstring;
  env : list (jsstring * jsstring);
  command : option jsstring
}.

(** The arguments of [child_process.spawn]. *)
Record SpawnCall : Type := {
  spawn_command : jsstring;
  spawn_args : list jsstring;
  spawn_cwd : option jsstring;
  spawn_env : list (jsstring * jsstring)
}.

(** [s || d] for an optional string: absent and empty strings are falsy. *)
Definition or_else (s : option jsstring) (d : jsstring) : jsstring :=
  match s with
  | Some (c :: r) => c :: r
  | _ => d
  end.

Definition truthy (s : option jsstring) : bool :=
  match s with Some (_ :: _) => true | _ => false end.

Definition in_range (lo hi : string) (c : N) : bool :=
  match lo, hi with
  | String l EmptyString, String h EmptyString =>
      (N_of_ascii l <=? c)%N && (c <=? N_of_ascii h)%N
  | _, _ => false
  end.

(** The characters listed in the class [[^-a-zA-Z0-9_:/?&.]]. *)
Definition listed (c : N) : bool :=
  in_range "-" "-" c || in_range "a" "z" c || in_range "A" "Z" c ||
  in_range "0" "9" c || in_range "_" "_" c || in_range ":" ":" c ||
  in_range "/" "/" c || in_range "?" "?" c || in_range "&" "&" c ||
  in_range "." "." c.

(** [s.replace(/[^...]/, replacement)] for a pattern that is one negated
    character class, without the [g] flag: the leftmost match only. *)
Fixpoint replace (listed : N -> bool) (replacement s : jsstring) : jsstring :=
  match s with
  | [] => []
  | c :: s' => if listed c then c :: replace listed replacement s'
               else replacement ++ s'
  end.

Definition lookup_env (key : jsstring) (env : list (jsstring * jsstring)) : option jsstring :=
  snd <$> List.find (fun kv => jsstring_eqb (fst kv) key) env.

Section Create.

(** [path.join], [process.cwd()], [process.env.LIBFAKETIME_PATH], and
    whether [process.env.OS] is ['Windows_NT']. *)
Variable path_join : list jsstring -> jsstring.
Variable cwd : jsstring.
Variable LIBFAKETIME_PATH : option jsstring.
Variable Windows_NT : bool.

(** [NSandbox.spawn]: the process the constructor starts. *)
Definition spawn (options : ISandboxOptions) : SpawnCall :=
  match command options with
  | Some (c :: r) =>
      {| spawn_command := c :: r;
         spawn_args := args options;
         spawn_cwd := Some (path_join [cwd; js "sandbox"]);
         spawn_env := env options |}
  | _ =>
      let noLog := if unsilenceLog options is Some true then []
                   else if Windows_NT then [js "-l"; js "NUL"]
                   else [js "-l"; js "/dev/null"] in
      let selLdrArgs := [js "-r"; js "3:3"; js "-w"; js "4:4"] ++ selLdrArgs options in
      let selLdrArgs :=
        selLdrArgs ++
        flat_map (fun kv => [js "-E"; fst kv ++ js "=" ++ snd kv]) (env options) in
      {| spawn_command := js "sandbox/nacl/bin/sel_ldr";
         spawn_args :=
           [js "-B"; js "./sandbox/nacl/lib/irt_core.nexe";
            js "-m"; js "./sandbox/nacl/root:/:ro"] ++
           noLog ++ selLdrArgs ++
           [js "./sandbox/nacl/lib/runnable-ld.so";
            js "--library-path"; js "/slib"; js "/python/bin/python2.7.nexe"] ++
           args options;
         spawn_cwd := None;
         spawn_env := env options |}
  end.

(** The options [create] passes to [new NSandbox]. *)
Definition create (_flavor : flavor) (options : ISandboxCreationOptions) : ISandboxOptions :=
  let pynbox := match _flavor with pynbox => true | unsandboxed => false end in
  let defaultEntryPoint := if pynbox then js "grist/main.pyc" else js "grist/main.py" in
  let args := [or_else (entryPoint options) defaultEntryPoint] in
  let args := if negb (truthy (entryPoint options)) && truthy (comment options)
              then args ++ [or_else (comment options) []] else args in
  let selLdrArgs := [] in
  let selLdrArgs := if truthy (sandboxMount options)
                    then selLdrArgs ++ [js "-m"; or_else (sandboxMount options) [] ++ js ":/sandbox:ro"]
                    else selLdrArgs in
  let selLdrArgs := if truthy (importMount options)
                    then selLdrArgs ++ [js "-m"; or_else (importMount options) [] ++ js ":/importdir:ro"]
                    else selLdrArgs in
  let pythonVersion := js "python2.7" in
  let env :=
    [(js "PYTHONPATH",
      if pynbox then js "grist:thirdparty"
      else path_join [cwd; js "sandbox"; js "grist"] ++ js ":" ++
           path_join [cwd; js "venv"; js "lib"; pythonVersion; js "site-packages"]);
     (js "DOC_URL", replace listed [] (or_else (docUrl options) []))] ++
    (if truthy LIBFAKETIME_PATH then
       [(js "DETERMINISTIC_MODE", js "1");
        (js "FAKETIME", js "2020-01-01 00:00:00");
        (js "LD_PRELOAD", or_else LIBFAKETIME_PATH []);
        (js "DYLD_INSERT_LIBRARIES", or_else LIBFAKETIME_PATH []);
        (js "DYLD_FORCE_FLAT_NAMESPACE", js "1")]
     else []) in
  {| args := args;
     opt_logCalls := logCalls options;
     opt_logTimes := logTimes options;
     unsilenceLog := None;
     selLdrArgs := selLdrArgs;
     env := env;
     command := if pynbox then None else Some pythonVersion |}.

End Create.

End NSandboxCreator.

(** ** Well-formed states *)

(** How many times a [resolve] or [reject] function of promise [p] was
    called. *)
Definition times_settled (p : nat) (st : NSandbox) : nat :=
  length (List.filter (fun s => Nat.eqb (fst s) p) (settlements st)).

(** No promise is both pending and settled, none is pending or settled
    twice, and the promises to come are new. *)
Definition registry_wf (st : NSandbox) : Prop :=
  NoDup (_pendingReads st ++ map fst (settlements st)) /\
  Forall (fun p => (p < promises st)%nat) (_pendingReads st) /\
  Forall (fun p => (p < promises st)%nat) (map fst (settlements st)).

(** A frame that answers a call: its code is [DATA] or [EXC]. *)
Definition is_response (DATA EXC : value) (frame : value * value) : bool :=
  strict_eq (fst frame) DATA || strict_eq (fst frame) EXC.

(** The timers to come are new. *)
Definition timers_wf (st : NSandbox) : Prop :=
  NoDup (map fst (timers st)) /\
  Forall (fun t => (fst t < nextTimer st)%nat) (timers st).

(** The members the message pump works on, and those of the outbound
    side. *)
Definition pump (st : NSandbox) :=
  (_exportedFunctions st, _pendingReads st, _isReadClosed st, promises st,
   settlements st, jobs st).

Definition outbound (st : NSandbox) :=
  (_isWriteClosed st, _streamToSandbox st, _throttle st, kills st).

(** The members the shutdown sequence works on. *)
Definition lifecycle (st : NSandbox) :=
  (_isWriteClosed st, ends (_streamToSandbox st), timers st, nextTimer st,
   kills st, shutdowns st, shutdownResults st).

(** The promise that the [i]th call of [shutdown()] awaits is settled. *)
Definition call_settled (calls : list shutdown_call) (i : nat) : Prop :=
  exists call, calls !! i = Some call /\ awaited call <> None.

(** A [shutdown()] call has returned or thrown once if its promise is
    settled and never otherwise. *)
Definition calls_ok (calls : list shutdown_call) (results : list (nat * settlement)) : Prop :=
  NoDup (map fst results) /\
  (forall i, In i (map fst results) <-> call_settled calls i).

(** What holds of the shutdown sequence in every state the controller
    reaches: the outbound stream was ended once if it is marked closed and
    never otherwise; the timers are well formed; at most one kill timer is
    pending or has fired, and none before the stream is closed; the calls
    of [shutdown()] and their results agree. *)
Definition lifecycle_inv (st : NSandbox) : Prop :=
  ends (_streamToSandbox st) = (if _isWriteClosed st then 1 else 0)%nat /\
  timers_wf st /\
  (length (timers st) + length (kills st) <= 1)%nat /\
  (_isWriteClosed st = false -> timers st = [] /\ kills st = []) /\
  calls_ok (shutdowns st) (shutdownResults st).


(** The state in which [shutdown()] has armed its timer and created the
    promise it awaits. *)
Definition shutdown_registered (st : NSandbox) : NSandbox :=
  set_shutdowns (shutdowns st ++ [mkShutdownCall (nextTimer st) None])
    (set_nextTimer (S (nextTimer st))
       (set_timers (timers st ++ [(nextTimer st, KILL_DELAY)])
          (set_cleanupHandler false
             (log (rawDebug (js "Sandbox shutdown starting")) st)))).


(** ** Further notions *)

(** [null] and [undefined], of which no property can be read. *)
Definition is_nullish (v : value) : bool :=
  match v with VUndefined | VNull => true | _ => false end.

(** The frames, of those the sandbox sends, that are not calls. *)
Definition responses_of (CALL : value) (frames : list (value * value))
  : list (value * value) :=
  List.filter (fun frame => negb (strict_eq (fst frame) CALL)) frames.

(** The number of [CALL] frames among the operations on the outbound
    stream. *)
Definition calls_written (CALL : value) (ops : list stream_op) : nat :=
  length (List.filter (fun frame => strict_eq (fst frame) CALL) (written ops)).

(** The characters of a string that the class of [DOC_URL] does not list. *)
Definition unlisted (s : jsstring) : list N :=
  List.filter (fun c => negb (NSandboxCreator.listed c)) s.

(** A pair of consecutive arguments on a command line. *)
Definition passes (flag arg : jsstring) (argv : list jsstring) : Prop :=
  exists before after, argv = before ++ flag :: arg :: after.

(** A call of the sandbox whose name cannot be converted to a string. *)
Definition unnamed_call (CALL msgCode data : value) : bool :=
  strict_eq msgCode CALL &&
  negb (negb (isArray data) || Nat.eqb (length (elements data)) 0) &&
  match to_string (nth 0 (elements data) VUndefined) with
  | None => true
  | Some _ => false
  end.

(** The values at which the callback of the unmarshaller throws: [null]
    and [undefined], and a frame that is a call without a name. *)
Definition throws_on (CALL v : value) : bool :=
  is_nullish v ||
  match js_index v 0, js_index v 1 with
  | Some msgCode, Some data => unnamed_call CALL msgCode data
  | _, _ => false
  end.

(** A frame that is a call of the sandbox and does not make the handler
    throw. *)
Definition is_call (CALL : value) (frame : value * value) : bool :=
  strict_eq (fst frame) CALL && negb (unnamed_call CALL (fst frame) (snd frame)).

(** The event is a call of [shutdown()]. *)
Definition is_shutdown (ev : event) : bool :=
  match ev with EvShutdown => true | _ => false end.



(** The events whose handlers call [_close]: [shutdown()], and the
    ['close'] and ['error'] events of [childProc]. *)
Definition closes (ev : event) : bool :=
  match ev with
  | EvShutdown | EvChildClose _ _ | EvChildError _ => true
  | _ => false
  end.

(** * Properties *)

(** Unfolds the statements of a handler and computes the members read. *)
Ltac members :=
  cbv [log settle stop_throttle kill_callback
       exec ret throw bind try_catch state_of has_thrown] in *;
  cbn [set_pendingReads set_isReadClosed set_isWriteClosed set_throttle
       set_streamToSandbox set_promises set_settlements set_jobs set_timers
       set_nextTimer set_kills set_shutdowns set_shutdownResults
       set_cleanupHandler set_logged
       _exportedFunctions _pendingReads _isReadClosed _isWriteClosed _throttle
       _streamToSandbox promises settlements jobs timers nextTimer kills
       shutdowns shutdownResults cleanupHandler logged fst snd] in *.

Lemma strict_eq_primitive (a b : value) :
  is_primitive b = true -> strict_eq a b = true -> a = b.
Proof.
  destruct a, b; simpl; try discriminate; intros _ H; try reflexivity.
  - apply Bool.eqb_prop in H. now subst.
  - apply Z.eqb_eq in H. now subst.
  - apply bool_decide_eq_true in H. now subst.
Qed.

Lemma strict_eq_refl (a : value) : is_primitive a = true -> strict_eq a a = true.
Proof.
  destruct a; simpl; try discriminate; intros _; try reflexivity.
  - apply Bool.eqb_reflx.
  - apply Z.eqb_refl.
  - now apply bool_decide_eq_true.
Qed.

Section ProtocolFacts.

Variables CALL DATA EXC : value.
Variable error_toString : error -> jsstring.

Hypothesis codes : codes_distinct CALL DATA EXC = true.

Lemma codes_primitive :
  is_primitive CALL = true /\ is_primitive DATA = true /\ is_primitive EXC = true.
Proof.
  unfold codes_distinct in codes.
  repeat (apply andb_prop in codes; destruct codes as [codes ?]). auto.
Qed.

Lemma codes_apart :
  strict_eq CALL DATA = false /\ strict_eq CALL EXC = false /\
  strict_eq DATA EXC = false.
Proof.
  unfold codes_distinct in codes.
  repeat (apply andb_prop in codes; destruct codes as [codes ?]).
  repeat split; now apply negb_true_iff.
Qed.

(** A frame whose code is [DATA] is neither a call nor an exception. *)
Lemma DATA_frame msgCode :
  strict_eq msgCode DATA = true ->
  strict_eq msgCode CALL = false /\ strict_eq msgCode EXC = false.
Proof.
  destruct codes_primitive as (_ & HD & _), codes_apart as (H1 & _ & H3).
  intros H. apply strict_eq_primitive in H; [subst | assumption]. split.
  - destruct (strict_eq DATA CALL) eqn:E; [| reflexivity].
    apply strict_eq_primitive in E; [| apply codes_primitive].
    rewrite <- E, strict_eq_refl in H1; [discriminate | assumption].
  - assumption.
Qed.

(** A frame whose code is [EXC] is not a call and not a [DATA] frame. *)
Lemma EXC_frame msgCode :
  strict_eq msgCode EXC = true ->
  strict_eq msgCode CALL = false /\ strict_eq msgCode DATA = false.
Proof.
  destruct codes_primitive as (HC & HD & HE), codes_apart as (H1 & H2 & H3).
  intros H. apply strict_eq_primitive in H; [subst | assumption]. split.
  - destruct (strict_eq EXC CALL) eqn:E; [| reflexivity].
    apply strict_eq_primitive in E; [| assumption].
    rewrite <- E, strict_eq_refl in H2; [discriminate | assumption].
  - destruct (strict_eq EXC DATA) eqn:E; [| reflexivity].
    apply strict_eq_primitive in E; [| assumption].
    rewrite <- E, strict_eq_refl in H3; [discriminate | assumption].
Qed.

(** What a frame that is not a call does. *)
Lemma response_frame msgCode data st :
  strict_eq msgCode CALL = false ->
  _onSandboxMsg CALL DATA EXC msgCode data st =
  Done tt
    match _pendingReads st with
    | [] => st
    | p :: rest =>
        let st' := set_pendingReads rest st in
        if strict_eq msgCode EXC then settle p (Rejected (SandboxError data)) st'
        else if strict_eq msgCode DATA then settle p (Resolved data) st'
        else log (rawWarn (js "Sandbox invalid message from sandbox")) st'
    end.
Proof.
  intros H. unfold _onSandboxMsg. rewrite H.
  destruct (_pendingReads st); [reflexivity |].
  cbv zeta. now repeat destruct (strict_eq _ _).
Qed.

End ProtocolFacts.

Lemma times_settled_app p st entry :
  times_settled p (set_settlements (settlements st ++ [entry]) st) =
  (times_settled p st + if Nat.eqb (fst entry) p then 1 else 0)%nat.
Proof.
  unfold times_settled. members.
  rewrite List.filter_app, length_app. simpl.
  now destruct (Nat.eqb (fst entry) p).
Qed.

Lemma not_settled_yet p st :
  ~ In p (map fst (settlements st)) -> times_settled p st = 0%nat.
Proof.
  unfold times_settled. induction (settlements st) as [| [q s] l IH]; simpl; [reflexivity |].
  intros H. destruct (Nat.eqb_spec q p) as [-> | _].
  - exfalso. apply H. now left.
  - apply IH. intros Hin. apply H. now right.
Qed.

(** C2, as the code has it. Response-frame dispatch: a frame that is not a
    call always ends normally.  With an empty registry it changes nothing.
    Otherwise the oldest pending call is removed: a [DATA] frame resolves
    its promise with the payload, an [EXC] frame rejects it with the
    payload as the description of the error, each by one call of the
    settling function of a promise that was not settled before, so that it
    is settled exactly once; a frame with any other code is logged and
    settles no promise. *)
Theorem response_frame_dispatch (CALL DATA EXC msgCode data : value) (st : NSandbox) :
  codes_distinct CALL DATA EXC = true ->
  registry_wf st ->
  strict_eq msgCode CALL = false ->
  exists st',
    _onSandboxMsg CALL DATA EXC msgCode data st = Done tt st' /\
    match _pendingReads st with
    | [] => st' = st
    | p :: rest =>
        _pendingReads st' = rest /\ ~ In p rest /\
        (strict_eq msgCode DATA = true ->
         settlements st' = settlements st ++ [(p, Resolved data)] /\
         times_settled p st' = 1%nat) /\
        (strict_eq msgCode EXC = true ->
         settlements st' = settlements st ++ [(p, Rejected (SandboxError data))] /\
         times_settled p st' = 1%nat) /\
        (strict_eq msgCode DATA = false -> strict_eq msgCode EXC = false ->
         settlements st' = settlements st /\
         logged st' = logged st ++ [rawWarn (js "Sandbox invalid message from sandbox")])
    end.
Proof.
  intros Hcodes [Hnodup _] Hcall.
  eexists. split; [now apply response_frame |].
  destruct (_pendingReads st) as [| p rest] eqn:Hq; [reflexivity |].
  simpl in Hnodup. apply NoDup_cons in Hnodup as [Hfresh Hnodup].
  assert (Hrest : ~ In p rest).
  { intros Hin. apply Hfresh, elem_of_app. left. now apply list_elem_of_In. }
  assert (Hnew : times_settled p st = 0%nat).
  { apply not_settled_yet. intros Hin. apply Hfresh, elem_of_app. right.
    now apply list_elem_of_In. }
  cbv zeta. split; [now repeat destruct (strict_eq _ _) |].
  split; [assumption |].
  split; [| split].
  - intros H. destruct (DATA_frame _ _ _ Hcodes msgCode H) as [_ ->]. rewrite H. split.
    + reflexivity.
    + unfold settle. rewrite times_settled_app. simpl. rewrite Nat.eqb_refl.
      unfold times_settled in *. members. lia.
  - intros H. rewrite H. split.
    + reflexivity.
    + unfold settle. rewrite times_settled_app. simpl. rewrite Nat.eqb_refl.
      unfold times_settled in *. members. lia.
  - intros H1 H2. rewrite H1, H2. split; reflexivity.
Qed.

(** A sandbox with one call pending. *)
Lemma response_frame_dispatch_witness :
  exists st',
    _onSandboxMsg MsgCode_CALL MsgCode_DATA MsgCode_EXC MsgCode_DATA (VNum 5)
      (state_of (pyCall MsgCode_CALL (js "add") [VNum 2; VNum 3] (new_NSandbox None false)))
    = Done tt st' /\
    _pendingReads st' = [] /\
    settlements st' = [(0%nat, Resolved (VNum 5))].
Proof.
  destruct (response_frame_dispatch MsgCode_CALL MsgCode_DATA MsgCode_EXC MsgCode_DATA (VNum 5)
              (state_of (pyCall MsgCode_CALL (js "add") [VNum 2; VNum 3] (new_NSandbox None false))))
    as (st' & Hrun & Hq & _ & Hdata & _).
  - reflexivity.
  - split; simpl.
    + apply NoDup_cons. split; [apply not_elem_of_nil | apply NoDup_nil_2].
    + split; repeat constructor.
  - reflexivity.
  - exists st'. split; [exact Hrun |]. split; [exact Hq |].
    destruct Hdata as [Hs _]; [reflexivity | exact Hs].
Defined.

Lemma _sendData_closed msgCode data st :
  _isReadClosed st = true -> _sendData msgCode data st = Thrown PipeToSandbox_closed st.
Proof. intros H. unfold _sendData. now rewrite H. Qed.

(** C2 fails as stated: one call is pending and a frame arrives whose code
    is none of the three, here the number 7.  The call is removed from the
    registry and its promise is settled not once but never. *)
Lemma invalid_code_settles_nothing :
  _pendingReads
    (state_of (pyCall MsgCode_CALL (js "add") [VNum 2; VNum 3] (new_NSandbox None false)))
  = [0%nat] /\
  _pendingReads
    (state_of
       (_onSandboxMsg MsgCode_CALL MsgCode_DATA MsgCode_EXC (VNum 7) (VStr (js "x"))
          (state_of (pyCall MsgCode_CALL (js "add") [VNum 2; VNum 3]
                       (new_NSandbox None false)))))
  = [] /\
  times_settled 0
    (state_of
       (_onSandboxMsg MsgCode_CALL MsgCode_DATA MsgCode_EXC (VNum 7) (VStr (js "x"))
          (state_of (pyCall MsgCode_CALL (js "add") [VNum 2; VNum 3]
                       (new_NSandbox None false)))))
  = 0%nat.
Proof. repeat split. Qed.

(** C9. Call-issue atomicity on a closed channel: once the inbound pipe is
    closed, [pyCall] throws a [SandboxError] and leaves the whole state,
    the registry included, as it was: nothing is written and no pending
    call is added. *)
Theorem pyCall_closed_is_atomic (CALL : value) (funcName : jsstring)
    (varArgs : list value) (st : NSandbox) :
  _isReadClosed st = true ->
  pyCall CALL funcName varArgs st = Thrown PipeToSandbox_closed st.
Proof.
  intros H. unfold pyCall, bind. now rewrite _sendData_closed.
Qed.

Lemma pyCall_closed_is_atomic_witness :
  pyCall MsgCode_CALL (js "add") [VNum 2; VNum 3] (on_read_end (new_NSandbox None false)) =
  Thrown PipeToSandbox_closed (on_read_end (new_NSandbox None false)).
Proof.
  apply (pyCall_closed_is_atomic MsgCode_CALL). reflexivity.
Defined.

(** ** What the shutdown listeners leave alone *)

Lemma settle_shutdown_frame i s st :
  pump (settle_shutdown i s st) = pump st /\
  outbound (settle_shutdown i s st) = outbound st /\
  logged (settle_shutdown i s st) = logged st /\
  nextTimer (settle_shutdown i s st) = nextTimer st.
Proof.
  unfold settle_shutdown.
  destruct (shutdowns st !! i) as [call |]; [| auto].
  destruct (awaited call); [auto |].
  destruct s; auto.
Qed.

Lemma notify_shutdowns_frame s st :
  pump (notify_shutdowns s st) = pump st /\
  outbound (notify_shutdowns s st) = outbound st /\
  logged (notify_shutdowns s st) = logged st /\
  nextTimer (notify_shutdowns s st) = nextTimer st.
Proof.
  unfold notify_shutdowns. generalize (seq 0 (length (shutdowns st))).
  intros l. revert st. induction l as [| i l IH]; intros st; simpl; [auto |].
  destruct (IH (settle_shutdown i s st)) as (-> & -> & -> & ->).
  apply settle_shutdown_frame.
Qed.

Lemma pump_members st st' :
  pump st' = pump st ->
  _exportedFunctions st' = _exportedFunctions st /\
  _pendingReads st' = _pendingReads st /\ _isReadClosed st' = _isReadClosed st /\
  promises st' = promises st /\ settlements st' = settlements st /\
  jobs st' = jobs st.
Proof. unfold pump. intros H. inversion H. auto 10. Qed.

Lemma outbound_members st st' :
  outbound st' = outbound st ->
  _isWriteClosed st' = _isWriteClosed st /\
  _streamToSandbox st' = _streamToSandbox st /\
  _throttle st' = _throttle st /\ kills st' = kills st.
Proof. unfold outbound. intros H. inversion H. auto. Qed.

Lemma _close_pump st : pump (_close st) = pump st.
Proof. unfold _close. members. now destruct (_isWriteClosed st). Qed.

Lemma shutdown_pump st : pump (shutdown st) = pump st.
Proof.
  unfold shutdown, setTimeout. members. rewrite _close_pump.
  destruct (_isWriteClosed st); [| reflexivity].
  now rewrite (proj1 (settle_shutdown_frame _ _ _)).
Qed.

(** The ['close'] event: the constructor's listener logs the exit and the
    listeners of the [shutdown()] calls run, or it throws and they do
    not. *)
Lemma on_child_close_cases code signal st :
  (exists entry,
     on_child_close code signal st =
     notify_shutdowns (Resolved code) (log entry (_close st))) \/
  on_child_close code signal st = _close st.
Proof.
  unfold on_child_close, _onExit. cbv zeta.
  destruct (to_string code), (to_string signal); eauto.
Qed.

Lemma on_child_close_pump code signal st : pump (on_child_close code signal st) = pump st.
Proof.
  destruct (on_child_close_cases code signal st) as [[entry ->] | ->].
  - rewrite (proj1 (notify_shutdowns_frame _ _)).
    unfold log, set_logged. apply _close_pump.
  - apply _close_pump.
Qed.

Lemma on_child_exit_pump code signal st : pump (on_child_exit code signal st) = pump st.
Proof. apply notify_shutdowns_frame. Qed.

Lemma on_child_error_pump err st : pump (on_child_error err st) = pump st.
Proof.
  unfold on_child_error, _onError.
  rewrite (proj1 (notify_shutdowns_frame _ _)).
  unfold log, set_logged. apply _close_pump.
Qed.

Lemma onTimeout_pump id st : pump (onTimeout id st) = pump st.
Proof. unfold onTimeout. now destruct (timer_pending id st). Qed.

Lemma on_write_error_pump err st : pump (on_write_error err st) = pump st.
Proof. unfold on_write_error. now destruct (_isWriteClosed st). Qed.

(** ** Calls from the sandbox *)

Section InboundCalls.

Variables CALL DATA EXC : value.
Variable error_toString : error -> jsstring.

(** A call whose name converts to a string is queued; nothing else
    changes but the log. *)
Lemma call_frame_queued msgCode fname name args st :
  strict_eq msgCode CALL = true ->
  to_string fname = Some name ->
  exists entry,
    _onSandboxMsg CALL DATA EXC msgCode (VArr (fname :: args)) st =
    Done tt (set_jobs (jobs st ++ [(fname, args)]) (log (rawDebug entry) st)).
Proof.
  intros H Hname. unfold _onSandboxMsg. rewrite H.
  cbn [isArray negb orb elements length Nat.eqb nth skipn]. rewrite Hname.
  eexists. reflexivity.
Qed.

(** A call whose name does not convert makes the handler throw before
    anything is logged or queued. *)
Lemma call_frame_throws msgCode fname args st :
  strict_eq msgCode CALL = true ->
  to_string fname = None ->
  _onSandboxMsg CALL DATA EXC msgCode (VArr (fname :: args)) st = Thrown Cannot_convert st.
Proof.
  intros H Hname. unfold _onSandboxMsg. rewrite H.
  cbn [isArray negb orb elements length Nat.eqb nth skipn]. now rewrite Hname.
Qed.

(** A name that the table does not resolve is answered with one [EXC]
    frame as long as the inbound pipe is open. *)
Lemma unresolved_name_answered msgCode fname name args st :
  strict_eq msgCode CALL = true ->
  _isReadClosed st = false ->
  jobs st = [] ->
  to_string fname = Some name ->
  get_property (_exportedFunctions st) name = PUndefined ->
  exists st1 st2,
    _onSandboxMsg CALL DATA EXC msgCode (VArr (fname :: args)) st = Done tt st1 /\
    run_jobs DATA EXC error_toString st1 = Done tt st2 /\
    _streamToSandbox st2 =
      _streamToSandbox st ++
      [SWrite EXC (VStr (js "Error: No such exported function: " ++ name))] /\
    _pendingReads st2 = _pendingReads st /\
    settlements st2 = settlements st /\
    jobs st2 = [].
Proof.
  intros Hcall Hopen Hjobs Hname Hprop.
  destruct (call_frame_queued msgCode fname name args st Hcall Hname) as [entry ->].
  do 2 eexists. split; [reflexivity |].
  unfold run_jobs. members. rewrite Hjobs. simpl.
  unfold bind, answer_call, try_catch, call_exported. members.
  rewrite Hname, Hprop. unfold _sendData. members. rewrite Hopen.
  repeat split; reflexivity.
Qed.

End InboundCalls.

(** The handler of a frame throws for a call whose name does not convert
    to a string, before it has done anything, and for nothing else. *)
Lemma _onSandboxMsg_throws (CALL DATA EXC msgCode data : value) (st : NSandbox) :
  (unnamed_call CALL msgCode data = true /\
   _onSandboxMsg CALL DATA EXC msgCode data st = Thrown Cannot_convert st) \/
  (unnamed_call CALL msgCode data = false /\
   has_thrown (_onSandboxMsg CALL DATA EXC msgCode data st) = false).
Proof.
  unfold unnamed_call, _onSandboxMsg. destruct (strict_eq msgCode CALL).
  - cbn [andb]. destruct (negb (isArray data) || Nat.eqb (length (elements data)) 0);
      [now right |].
    cbv zeta. destruct (to_string (nth 0 (elements data) VUndefined)); [now right | now left].
  - right. split; [reflexivity |].
    destruct (_pendingReads st); [reflexivity |]. cbv zeta.
    now repeat destruct (strict_eq _ _).
Qed.

(** Sending an answer never throws: a failure to send is logged. *)
Lemma run_job_never_throws (DATA EXC : value) (error_toString : error -> jsstring)
    (i : nat) (st : NSandbox) :
  has_thrown (run_job DATA EXC error_toString i st) = false.
Proof.
  unfold run_job. destruct (jobs st !! i) as [[fname args] |]; [| reflexivity].
  unfold answer_call, try_catch, _sendData.
  destruct (call_exported fname args _) as [v | d | d];
    try reflexivity; members; now destruct (_isReadClosed st).
Qed.

(** C4. Unknown exported call, at the input where the code departs from
    it: the sandbox is created without exports, so that the table is the
    literal [{}] and holds no function at all, and the sandbox calls
    ["toString"].  The lookup finds [Object.prototype.toString], the
    dispatcher calls it, and the one frame written is a [DATA] frame, not
    an [EXC] frame. *)
Theorem inherited_name_is_called :
  own (_exportedFunctions (new_NSandbox None false)) !! js "toString" = None /\
  written
    (_streamToSandbox
       (state_of
          (run_jobs MsgCode_DATA MsgCode_EXC describe_error
             (state_of
                (_onSandboxData MsgCode_CALL MsgCode_DATA MsgCode_EXC
                   [frame_value (MsgCode_CALL, VArr [VStr (js "toString")])]
                   (new_NSandbox None false)))))) =
  [(MsgCode_DATA, VStr (js "[object Undefined]"))].
Proof. split; reflexivity. Qed.

(** C5, as the code has it. A call frame whose payload carries no function
    name, because it is not an array or is an empty one, is not answered:
    the handler ends normally, logs a warning, writes no frame, queues no
    answer and leaves the registry as it is. *)
Theorem invalid_call_is_logged_only (CALL DATA EXC msgCode data : value) (st : NSandbox) :
  strict_eq msgCode CALL = true ->
  isArray data = false \/ data = VArr [] ->
  exists st',
    _onSandboxMsg CALL DATA EXC msgCode data st = Done tt st' /\
    logged st' = logged st ++ [rawWarn (js "Sandbox invalid call from the sandbox")] /\
    _streamToSandbox st' = _streamToSandbox st /\
    jobs st' = jobs st /\
    _pendingReads st' = _pendingReads st /\
    settlements st' = settlements st.
Proof.
  intros Hcall Hdata. unfold _onSandboxMsg. rewrite Hcall.
  assert (Hinvalid : negb (isArray data) || Nat.eqb (length (elements data)) 0 = true).
  { destruct Hdata as [-> | ->]; reflexivity. }
  rewrite Hinvalid. eexists. split; [reflexivity |]. repeat split.
Qed.

Lemma invalid_call_is_logged_only_witness :
  exists st',
    _onSandboxMsg MsgCode_CALL MsgCode_DATA MsgCode_EXC MsgCode_CALL VNull
      (new_NSandbox None false) = Done tt st' /\
    _streamToSandbox st' = [] /\ jobs st' = [].
Proof.
  destruct (invalid_call_is_logged_only MsgCode_CALL MsgCode_DATA MsgCode_EXC
              MsgCode_CALL VNull (new_NSandbox None false))
    as (st' & Hrun & _ & Hout & Hjobs & _); [reflexivity | left; reflexivity |].
  exists st'. auto.
Defined.

(** C5 fails as stated: a call frame with an empty array as payload reaches
    an open sandbox, and after every queued answer has been sent no frame
    at all was written, so no [EXC] frame. *)
Lemma invalid_call_gets_no_EXC :
  written
    (_streamToSandbox
       (state_of
          (run_jobs MsgCode_DATA MsgCode_EXC describe_error
             (state_of
                (_onSandboxData MsgCode_CALL MsgCode_DATA MsgCode_EXC
                   [frame_value (MsgCode_CALL, VArr [])]
                   (new_NSandbox None false)))))) = [] /\
  _isReadClosed (new_NSandbox None false) = false.
Proof. split; reflexivity. Qed.

(** ** Termination of the process *)

Lemma _close_members st :
  _throttle (_close st) = S <$> _throttle st /\
  _isWriteClosed (_close st) = true /\
  ends (_streamToSandbox (_close st)) =
    (ends (_streamToSandbox st) + if _isWriteClosed st then 0 else 1)%nat.
Proof.
  unfold _close. members. destruct (_isWriteClosed st) eqn:Hw; members.
  - rewrite Hw. auto with arith.
  - unfold ends. rewrite List.filter_app, length_app. auto.
Qed.

Lemma _close_outbound st st' :
  outbound st' = outbound st -> outbound (_close st') = outbound (_close st).
Proof.
  intros H. apply outbound_members in H as (Hw & Hs & Ht & Hk).
  unfold _close, outbound. members. rewrite Hw.
  destruct (_isWriteClosed st) eqn:E; members; now rewrite ?Hw, ?Hs, ?Ht, ?Hk, ?E.
Qed.

Lemma on_child_close_outbound code signal st :
  outbound (on_child_close code signal st) = outbound (_close st).
Proof.
  destruct (on_child_close_cases code signal st) as [[entry ->] | ->]; [| reflexivity].
  now rewrite (proj1 (proj2 (notify_shutdowns_frame _ _))).
Qed.

Lemma on_child_error_outbound err st :
  outbound (on_child_error err st) = outbound (_close st).
Proof.
  unfold on_child_error, _onError.
  now rewrite (proj1 (proj2 (notify_shutdowns_frame _ _))).
Qed.

Lemma child_exits_outbound code signal st :
  outbound (child_exits code signal st) = outbound (_close st).
Proof.
  unfold child_exits. rewrite on_child_close_outbound. apply _close_outbound.
  unfold on_child_exit. apply notify_shutdowns_frame.
Qed.

Lemma child_exits_pump code signal st : pump (child_exits code signal st) = pump st.
Proof. unfold child_exits. now rewrite on_child_close_pump, on_child_exit_pump. Qed.

Lemma fold_settle (s : settlement) (l : list nat) (st : NSandbox) :
  fold_left (fun st p => settle p s st) l st =
  set_settlements (settlements st ++ map (fun p => (p, s)) l) st.
Proof.
  revert st. induction l as [| p l IH]; intros st; simpl.
  - rewrite app_nil_r. now destruct st.
  - rewrite IH. unfold settle. members. now rewrite <- app_assoc.
Qed.

Lemma _onSandboxClose_spec st :
  _onSandboxClose st =
  set_pendingReads []
    (set_settlements
       (settlements st ++ map (fun p => (p, Rejected PipeFromSandbox_closed)) (_pendingReads st))
       (set_isReadClosed true (stop_throttle st))).
Proof. unfold _onSandboxClose. cbv zeta. now rewrite fold_settle. Qed.

(** What the end or an error of the inbound stream does to the calls that
    are pending. *)
Lemma inbound_closed_registry st st' :
  st' = on_read_end st \/ (exists err, st' = on_read_error err st) ->
  _isReadClosed st' = true /\
  _pendingReads st' = [] /\
  settlements st' =
    settlements st ++ map (fun p => (p, Rejected PipeFromSandbox_closed)) (_pendingReads st).
Proof.
  intros [-> | [err ->]]; unfold on_read_end, on_read_error;
    rewrite _onSandboxClose_spec; now split_and!.
Qed.

(** C8, as the code has it. When the process terminates, by the ['exit']
    and ['close'] events of [childProc], by ['close'] alone or by its
    ['error'] event, the throttle, if one is attached, is stopped and the
    outbound stream is ended unless it was ended before; the registry is
    left as it is: no pending call is failed or removed.  When the inbound
    stream then ends or has an error, every call that is pending is
    failed with the closed-channel failure and the registry is emptied. *)
Theorem exit_cleanup (code signal : value) (err : jsstring) (st : NSandbox) :
  Forall
    (fun terminated =>
       _throttle terminated = S <$> _throttle st /\
       _isWriteClosed terminated = true /\
       ends (_streamToSandbox terminated) =
         (ends (_streamToSandbox st) + if _isWriteClosed st then 0 else 1)%nat /\
       _pendingReads terminated = _pendingReads st /\
       settlements terminated = settlements st /\
       _isReadClosed terminated = _isReadClosed st /\
       Forall
         (fun closed =>
            _isReadClosed closed = true /\
            _pendingReads closed = [] /\
            settlements closed =
              settlements st ++
              map (fun p => (p, Rejected PipeFromSandbox_closed)) (_pendingReads st))
         [on_read_end terminated; on_read_error err terminated])
    [child_exits code signal st; on_child_close code signal st; on_child_error err st].
Proof.
  assert (Hall : forall terminated,
            pump terminated = pump st -> outbound terminated = outbound (_close st) ->
            _throttle terminated = S <$> _throttle st /\
            _isWriteClosed terminated = true /\
            ends (_streamToSandbox terminated) =
              (ends (_streamToSandbox st) + if _isWriteClosed st then 0 else 1)%nat /\
            _pendingReads terminated = _pendingReads st /\
            settlements terminated = settlements st /\
            _isReadClosed terminated = _isReadClosed st /\
            Forall
              (fun closed =>
                 _isReadClosed closed = true /\
                 _pendingReads closed = [] /\
                 settlements closed =
                   settlements st ++
                   map (fun p => (p, Rejected PipeFromSandbox_closed)) (_pendingReads st))
              [on_read_end terminated; on_read_error err terminated]).
  { intros terminated Hpump Hout.
    apply pump_members in Hpump as (_ & Hq & Hc & _ & Hs & _).
    apply outbound_members in Hout as (Hw & Hstream & Ht & _).
    destruct (_close_members st) as (H1 & H2 & H3).
    rewrite Hw, Hstream, Ht, H1, H2, H3. split_and!; try assumption; try reflexivity.
    rewrite <- Hq, <- Hs.
    constructor; [| constructor; [| constructor]]; apply inbound_closed_registry;
      [now left | right; now exists err]. }
  constructor; [| constructor; [| constructor; [| constructor]]]; apply Hall.
  - apply child_exits_pump.
  - apply child_exits_outbound.
  - apply on_child_close_pump.
  - apply on_child_close_outbound.
  - apply on_child_error_pump.
  - apply on_child_error_outbound.
Qed.

(** C8 fails as stated: a call is pending, the inbound stream has not
    closed, and the process terminates; the call stays in the registry
    and its promise is not settled. *)
Lemma exit_fails_no_pending_call :
  _pendingReads
    (child_exits (VNum 0) VNull
       (state_of (pyCall MsgCode_CALL (js "add") [VNum 2; VNum 3] (new_NSandbox None true))))
  = [0%nat] /\
  settlements
    (child_exits (VNum 0) VNull
       (state_of (pyCall MsgCode_CALL (js "add") [VNum 2; VNum 3] (new_NSandbox None true))))
  = [] /\
  _isReadClosed
    (state_of (pyCall MsgCode_CALL (js "add") [VNum 2; VNum 3] (new_NSandbox None true)))
  = false.
Proof. repeat split; reflexivity. Qed.

(** ** Loops *)

Lemma for_each_app {A} (body : A -> M unit) (l1 l2 : list A) (st : NSandbox) :
  for_each body (l1 ++ l2) st = bind (for_each body l1) (fun _ => for_each body l2) st.
Proof.
  revert st. induction l1 as [| x l1 IH]; intros st; simpl.
  - reflexivity.
  - unfold bind in *. destruct (body x st) as [[] st' | e st']; [apply IH | reflexivity].
Qed.

(** A property that every turn of the body keeps, whether the body ends
    normally or throws, holds after the loop. *)
Lemma for_each_keeps {A} (P : NSandbox -> Prop) (body : A -> M unit) :
  (forall x st, P st -> P (state_of (body x st))) ->
  forall l st, P st -> P (state_of (for_each body l st)).
Proof.
  intros Hbody l. induction l as [| x l IH]; intros st HP; simpl; [assumption |].
  unfold bind. specialize (Hbody x st HP).
  destruct (body x st) as [[] st' | e st']; simpl in *; [now apply IH | assumption].
Qed.

(** ** The inbound pipe closes *)

(** The inbound pipe is closed, no call is pending, and the settlements
    are the given ones. *)
Definition drained (log : list (nat * settlement)) (st : NSandbox) : Prop :=
  _isReadClosed st = true /\ _pendingReads st = [] /\ settlements st = log.

Lemma drained_pump log st st' : pump st' = pump st -> drained log st -> drained log st'.
Proof.
  intros H (? & ? & ?). apply pump_members in H as (_ & ? & ? & _ & ? & _).
  unfold drained. repeat split; congruence.
Qed.

Section Drained.

Variables CALL DATA EXC : value.
Variable error_toString : error -> jsstring.

Lemma answer_call_registry fname args st :
  let st' := state_of (answer_call DATA EXC error_toString fname args st) in
  _pendingReads st' = _pendingReads st /\ _isReadClosed st' = _isReadClosed st /\
  settlements st' = settlements st /\ promises st' = promises st /\
  outbound st' = (_isWriteClosed st, _streamToSandbox st', _throttle st, kills st) /\
  timers st' = timers st /\ nextTimer st' = nextTimer st /\
  shutdowns st' = shutdowns st /\ shutdownResults st' = shutdownResults st.
Proof.
  unfold answer_call, try_catch, _sendData.
  destruct (call_exported fname args st) as [v | d | d];
    destruct (_isReadClosed st) eqn:E; members; rewrite ?E; auto 10.
Qed.

Lemma _onSandboxMsg_drained log msgCode data st :
  drained log st ->
  drained log (state_of (_onSandboxMsg CALL DATA EXC msgCode data st)).
Proof.
  intros (Hc & Hq & Hs). unfold _onSandboxMsg.
  destruct (strict_eq msgCode CALL).
  - destruct (negb (isArray data) || Nat.eqb (length (elements data)) 0);
      [members; now repeat split |].
    cbv zeta. destruct (to_string _); members; now repeat split.
  - rewrite Hq. now repeat split.
Qed.

Lemma _onSandboxData_drained log values st :
  drained log st ->
  drained log (state_of (_onSandboxData CALL DATA EXC values st)).
Proof.
  unfold _onSandboxData. apply for_each_keeps. clear st. intros value st H.
  destruct (js_index value 0), (js_index value 1); try assumption.
  now apply _onSandboxMsg_drained.
Qed.

Lemma step_drained log ev st :
  drained log st -> drained log (step CALL DATA EXC error_toString st ev).
Proof.
  intros H. destruct ev; simpl.
  - unfold pyCall, bind, _sendData. destruct H as (Hc & ? & ?). rewrite Hc.
    now repeat split.
  - eapply drained_pump; [apply shutdown_pump | assumption].
  - now apply _onSandboxData_drained.
  - unfold on_read_end. rewrite _onSandboxClose_spec.
    destruct H as (? & Hq & ?). rewrite Hq. simpl. rewrite app_nil_r.
    now repeat split.
  - unfold on_read_error. rewrite _onSandboxClose_spec.
    destruct H as (? & Hq & ?). members. rewrite Hq. simpl. rewrite app_nil_r.
    now repeat split.
  - eapply drained_pump; [apply on_write_error_pump | assumption].
  - unfold run_job. destruct (jobs st !! i) as [[fname args] |]; [| assumption].
    destruct (answer_call_registry fname args (set_jobs (delete i (jobs st)) st))
      as (Hq & Hc & Hs & _).
    destruct H as (? & ? & ?). unfold drained. rewrite Hq, Hc, Hs. now repeat split.
  - eapply drained_pump; [apply onTimeout_pump | assumption].
  - eapply drained_pump; [apply on_child_close_pump | assumption].
  - eapply drained_pump; [apply on_child_exit_pump | assumption].
  - eapply drained_pump; [apply on_child_error_pump | assumption].
Qed.

Lemma run_drained log evs st :
  drained log st -> drained log (run CALL DATA EXC error_toString evs st).
Proof.
  unfold run. revert st. induction evs as [| ev evs IH]; intros st H; simpl.
  - assumption.
  - apply IH. now apply step_drained.
Qed.

End Drained.

(** C3. Closed-channel draining: when the inbound stream ends
    ([err = None]) or fails ([err = Some e]) every pending call is rejected
    with the error [PipeFromSandbox is closed], oldest first, and the
    registry is emptied.  Whatever happens afterwards, [pyCall] throws at
    once, no call is ever pending again, and no promise is settled any
    more, so none is resolved. *)
Theorem closed_channel_draining (CALL DATA EXC : value) (error_toString : error -> jsstring)
    (err : option jsstring) (st : NSandbox) :
  let closed := match err with
                | None => on_read_end st
                | Some e => on_read_error e st
                end in
  settlements closed =
    settlements st ++ map (fun p => (p, Rejected PipeFromSandbox_closed)) (_pendingReads st) /\
  _pendingReads closed = [] /\
  forall (evs : list (event)) (funcName : jsstring) (varArgs : list value),
    let later := run CALL DATA EXC error_toString evs closed in
    pyCall CALL funcName varArgs later = Thrown PipeToSandbox_closed later /\
    _pendingReads later = [] /\
    settlements later = settlements closed.
Proof.
  intros closed.
  assert (H : drained (settlements st ++
                       map (fun p => (p, Rejected PipeFromSandbox_closed)) (_pendingReads st))
                      closed).
  { subst closed. destruct err as [e |]; unfold on_read_error, on_read_end;
      rewrite _onSandboxClose_spec; now repeat split. }
  destruct H as (Hc & Hq & Hs). split; [exact Hs |]. split; [exact Hq |].
  intros evs funcName varArgs later.
  destruct (run_drained CALL DATA EXC error_toString (settlements closed) evs closed)
    as (Hc' & Hq' & Hs'); [now repeat split |].
  split; [| split; assumption].
  unfold pyCall, bind. now rewrite _sendData_closed.
Qed.

(** ** Calls and their answers *)

Section Correlation.

Variables CALL DATA EXC : value.
Hypothesis codes : codes_distinct CALL DATA EXC = true.

Lemma pyCall_open funcName varArgs st :
  _isReadClosed st = false ->
  pyCall CALL funcName varArgs st =
  Done (promises st)
    (set_pendingReads (_pendingReads st ++ [promises st])
       (set_promises (S (promises st))
          (set_streamToSandbox
             (_streamToSandbox st ++ [SWrite CALL (VArr (VStr funcName :: varArgs))]) st))).
Proof. intros H. unfold pyCall, bind, _sendData. now rewrite H. Qed.

(** Calls in a row get consecutive promises and queue up in order. *)
Lemma pyCalls_open calls st :
  _isReadClosed st = false ->
  exists st1,
    pyCalls CALL calls st = Done (seq (promises st) (length calls)) st1 /\
    _pendingReads st1 = _pendingReads st ++ seq (promises st) (length calls) /\
    settlements st1 = settlements st /\
    _isReadClosed st1 = false.
Proof.
  revert st. induction calls as [| [funcName varArgs] calls IH]; intros st Hopen.
  - exists st. simpl. rewrite app_nil_r. auto.
  - simpl. unfold bind, ret. rewrite pyCall_open by assumption.
    match goal with
    | |- context [pyCalls CALL calls ?s] =>
        destruct (IH s) as (st1 & Hrun & Hq & Hs & Hc); [assumption |]
    end.
    exists st1. rewrite Hrun. members.
    rewrite Hq, <- app_assoc. auto.
Qed.

(** Frames that answer calls settle the oldest pending calls, one each,
    in order. *)
Lemma responses_in_order frames :
  forall ids rest st,
    Forall (fun frame => is_response DATA EXC frame = true) frames ->
    length ids = length frames ->
    _pendingReads st = ids ++ rest ->
    exists st2,
      _onSandboxData CALL DATA EXC (map frame_value frames) st = Done tt st2 /\
      _pendingReads st2 = rest /\
      settlements st2 =
        settlements st ++ zip_with (fun p frame => (p, response DATA frame)) ids frames.
Proof.
  induction frames as [| [msgCode data] frames IH]; intros ids rest st Hok Hlen Hq.
  - destruct ids; [| discriminate]. exists st. simpl. rewrite app_nil_r. auto.
  - destruct ids as [| p ids]; [discriminate |].
    apply Forall_cons in Hok as [Hframe Hok].
    unfold _onSandboxData. simpl. unfold bind at 1.
    unfold is_response in Hframe. simpl in Hframe.
    assert (Hstep : _onSandboxMsg CALL DATA EXC msgCode data st =
                    Done tt (settle p (response DATA (msgCode, data))
                               (set_pendingReads (ids ++ rest) st))).
    { destruct (strict_eq msgCode DATA) eqn:HD.
      - destruct (DATA_frame _ _ _ codes msgCode HD) as [HC HE].
        rewrite (response_frame CALL DATA EXC msgCode data st HC), Hq. simpl.
        unfold response. simpl. now rewrite HE, HD.
      - simpl in Hframe.
        destruct (EXC_frame _ _ _ codes msgCode Hframe) as [HC _].
        rewrite (response_frame CALL DATA EXC msgCode data st HC), Hq. simpl.
        unfold response. simpl. now rewrite Hframe, HD. }
    rewrite Hstep.
    destruct (IH ids rest (settle p (response DATA (msgCode, data))
                             (set_pendingReads (ids ++ rest) st)))
      as (st2 & Hrun & Hq2 & Hs2); [assumption | simpl in Hlen; lia | reflexivity |].
    exists st2. split; [exact Hrun |]. split; [exact Hq2 |].
    rewrite Hs2. members. simpl. now rewrite <- app_assoc.
Qed.

End Correlation.

Lemma _onSandboxData_app (CALL DATA EXC : value) (values1 values2 : list value) (st : NSandbox) :
  _onSandboxData CALL DATA EXC (values1 ++ values2) st =
  bind (_onSandboxData CALL DATA EXC values1)
       (fun _ => _onSandboxData CALL DATA EXC values2) st.
Proof. apply for_each_app. Qed.

(** The chunks in which the values arrive do not matter. *)
Lemma chunks_as_one (CALL DATA EXC : value) (chunks : list (list value)) (st : NSandbox) :
  for_each (_onSandboxData CALL DATA EXC) chunks st =
  _onSandboxData CALL DATA EXC (concat chunks) st.
Proof.
  revert st. induction chunks as [| values chunks IH]; intros st; simpl; [reflexivity |].
  rewrite _onSandboxData_app. unfold bind.
  destruct (_onSandboxData CALL DATA EXC values st) as [[] st' | e st']; [apply IH | reflexivity].
Qed.

(** C1. FIFO correlation of outgoing calls: calls issued by [pyCall] on an
    open sandbox get consecutive promises; when as many frames with code
    [DATA] or [EXC] arrive as there are calls pending, in whatever chunks,
    the [k]th frame settles the [k]th pending call, the oldest first:
    resolved with the payload of a [DATA] frame, rejected with that of an
    [EXC] frame; and the registry is empty afterwards.  Calls that were
    pending before come first. *)
Theorem fifo_correlation (CALL DATA EXC : value) (calls : list (jsstring * list value))
    (frames : list (value * value)) (chunks : list (list value)) (st : NSandbox) :
  codes_distinct CALL DATA EXC = true ->
  _isReadClosed st = false ->
  length frames = (length (_pendingReads st) + length calls)%nat ->
  Forall (fun frame => is_response DATA EXC frame = true) frames ->
  concat chunks = map frame_value frames ->
  exists st1 st2,
    pyCalls CALL calls st = Done (seq (promises st) (length calls)) st1 /\
    for_each (_onSandboxData CALL DATA EXC) chunks st1 = Done tt st2 /\
    settlements st2 =
      settlements st ++
      zip_with (fun p frame => (p, response DATA frame))
               (_pendingReads st ++ seq (promises st) (length calls)) frames /\
    _pendingReads st2 = [].
Proof.
  intros Hcodes Hopen Hlen Hok Hchunks.
  destruct (pyCalls_open CALL calls st Hopen) as (st1 & Hcalls & Hq & Hs & _).
  destruct (responses_in_order CALL DATA EXC Hcodes frames
              (_pendingReads st ++ seq (promises st) (length calls)) [] st1)
    as (st2 & Hrun & Hq2 & Hs2).
  - assumption.
  - rewrite length_app, length_seq. lia.
  - now rewrite app_nil_r.
  - exists st1, st2. split; [exact Hcalls |].
    rewrite chunks_as_one, Hchunks. split; [exact Hrun |].
    rewrite Hs2, Hs. auto.
Qed.

(** Two calls, answered by a [DATA] frame and an [EXC] frame that arrive
    in three chunks, the second of them empty. *)
Lemma fifo_correlation_witness :
  exists st1 st2,
    pyCalls MsgCode_CALL [(js "add", [VNum 2; VNum 3]); (js "boom", [])]
      (new_NSandbox None false) = Done [0%nat; 1%nat] st1 /\
    for_each (_onSandboxData MsgCode_CALL MsgCode_DATA MsgCode_EXC)
      [[frame_value (MsgCode_DATA, VNum 5)]; [];
       [frame_value (MsgCode_EXC, VStr (js "ValueError: boom"))]] st1 = Done tt st2 /\
    settlements st2 =
      [(0%nat, Resolved (VNum 5));
       (1%nat, Rejected (SandboxError (VStr (js "ValueError: boom"))))] /\
    _pendingReads st2 = [].
Proof.
  apply (fifo_correlation MsgCode_CALL MsgCode_DATA MsgCode_EXC
           [(js "add", [VNum 2; VNum 3]); (js "boom", [])]
           [(MsgCode_DATA, VNum 5); (MsgCode_EXC, VStr (js "ValueError: boom"))]
           [[frame_value (MsgCode_DATA, VNum 5)]; [];
            [frame_value (MsgCode_EXC, VStr (js "ValueError: boom"))]]
           (new_NSandbox None false)).
  - reflexivity.
  - reflexivity.
  - reflexivity.
  - repeat constructor.
  - reflexivity.
Defined.

(** ** The environment of the spawned process *)

Module CreatorFacts.
Import NSandboxCreator.

Lemma replace_listed (listed : N -> bool) (replacement s : jsstring) :
  Forall (fun c => listed c = true) s -> replace listed replacement s = s.
Proof.
  induction 1 as [| c s Hc _ IH]; simpl; [reflexivity |].
  now rewrite Hc, IH.
Qed.

Lemma replace_leftmost (listed : N -> bool) (replacement before after : jsstring) (c : N) :
  Forall (fun c => listed c = true) before ->
  listed c = false ->
  replace listed replacement (before ++ c :: after) = before ++ replacement ++ after.
Proof.
  intros Hbefore Hc. induction Hbefore as [| b before Hb _ IH]; simpl.
  - now rewrite Hc.
  - now rewrite Hb, IH.
Qed.

(** A string is made of listed characters only, or has a leftmost
    character that is not listed. *)
Lemma leftmost_unlisted (listed : N -> bool) (s : jsstring) :
  Forall (fun c => listed c = true) s \/
  exists before c after,
    s = before ++ c :: after /\
    Forall (fun c => listed c = true) before /\ listed c = false.
Proof.
  induction s as [| c s IH]; [left; constructor |].
  destruct (listed c) eqn:Hc.
  - destruct IH as [IH | (before & d & after & -> & Hb & Hd)].
    + left. now constructor.
    + right. exists (c :: before), d, after. repeat split; [now constructor | assumption].
  - right. exists [], c, s. repeat split; [constructor | assumption].
Qed.

Lemma spawn_env_is_env path_join cwd Windows_NT options :
  spawn_env (spawn path_join cwd Windows_NT options) = env options.
Proof. unfold spawn. now destruct (command options) as [[| c r] |]. Qed.

Lemma DOC_URL_of_create path_join cwd LIBFAKETIME_PATH _flavor options :
  lookup_env (js "DOC_URL") (env (create path_join cwd LIBFAKETIME_PATH _flavor options)) =
  Some (replace listed [] (or_else (docUrl options) [])).
Proof. reflexivity. Qed.

End CreatorFacts.

(** C10. DOC_URL sanitization is single-occurrence: for every flavor and
    all creation options, the [DOC_URL] entry of the environment with
    which the process of the sandbox that [create] makes is spawned is [options.docUrl], or the empty string when that is
    absent, with the leftmost character outside [-a-zA-Z0-9_:/?&.] removed
    and nothing else: a string without such a character is passed as it
    is, and whatever follows the leftmost such character, other characters
    outside the set included, is kept. *)
Theorem DOC_URL_single_occurrence
    (path_join : list jsstring -> jsstring) (cwd : jsstring)
    (LIBFAKETIME_PATH : option jsstring) (Windows_NT : bool)
    (_flavor : NSandboxCreator.flavor)
    (options : NSandboxCreator.ISandboxCreationOptions) :
  exists DOC_URL,
    NSandboxCreator.lookup_env (js "DOC_URL")
      (NSandboxCreator.spawn_env
         (NSandboxCreator.spawn path_join cwd Windows_NT
            (NSandboxCreator.create path_join cwd LIBFAKETIME_PATH _flavor options))) =
    Some DOC_URL /\
    (NSandboxCreator.docUrl options = None -> DOC_URL = []) /\
    (forall url, NSandboxCreator.docUrl options = Some url ->
       (Forall (fun c => NSandboxCreator.listed c = true) url -> DOC_URL = url) /\
       (forall before c after,
          url = before ++ c :: after ->
          Forall (fun c => NSandboxCreator.listed c = true) before ->
          NSandboxCreator.listed c = false ->
          DOC_URL = before ++ after)).
Proof.
  eexists. split.
  { rewrite CreatorFacts.spawn_env_is_env. apply CreatorFacts.DOC_URL_of_create. }
  split.
  - intros ->. reflexivity.
  - intros url ->.
    assert (Hor : NSandboxCreator.or_else (Some url) [] = url) by now destruct url.
    rewrite Hor. split.
    + apply CreatorFacts.replace_listed.
    + intros before c after -> Hb Hc.
      now rewrite (CreatorFacts.replace_leftmost _ [] before after c Hb Hc).
Qed.

(** ** The shutdown sequence *)

Lemma ends_write ops msgCode data : ends (ops ++ [SWrite msgCode data]) = ends ops.
Proof. unfold ends. rewrite List.filter_app, length_app. simpl. lia. Qed.

Lemma ends_end ops : ends (ops ++ [SEnd]) = S (ends ops).
Proof. unfold ends. rewrite List.filter_app, length_app. simpl. lia. Qed.

Lemma lifecycle_inv_same st st' :
  lifecycle st' = lifecycle st -> lifecycle_inv st -> lifecycle_inv st'.
Proof.
  unfold lifecycle. intros H. inversion H as [[Hw He Ht Hn Hk Hs Hr]].
  unfold lifecycle_inv, timers_wf.
  now rewrite Hw, He, Ht, Hn, Hk, Hs, Hr.
Qed.

Lemma _onSandboxClose_lifecycle st : lifecycle (_onSandboxClose st) = lifecycle st.
Proof. now rewrite _onSandboxClose_spec. Qed.

Section PumpLifecycle.

Variables CALL DATA EXC : value.
Variable error_toString : error -> jsstring.

Lemma _sendData_lifecycle msgCode data st :
  lifecycle (state_of (_sendData msgCode data st)) = lifecycle st.
Proof.
  unfold _sendData. destruct (_isReadClosed st); [reflexivity |].
  unfold lifecycle. members. now rewrite ends_write.
Qed.

Lemma pyCall_lifecycle funcName varArgs st :
  lifecycle (state_of (pyCall CALL funcName varArgs st)) = lifecycle st.
Proof.
  unfold pyCall, bind, _sendData. destruct (_isReadClosed st); [reflexivity |].
  unfold lifecycle, _pyCallWait. members. now rewrite ends_write.
Qed.

Lemma _onSandboxMsg_lifecycle msgCode data st :
  lifecycle (state_of (_onSandboxMsg CALL DATA EXC msgCode data st)) = lifecycle st.
Proof.
  unfold _onSandboxMsg. destruct (strict_eq msgCode CALL).
  - destruct (negb (isArray data) || Nat.eqb (length (elements data)) 0); [easy |].
    cbv zeta. now destruct (to_string _).
  - destruct (_pendingReads st); [reflexivity |]. cbv zeta.
    now repeat destruct (strict_eq _ _).
Qed.

Lemma _onSandboxData_lifecycle values st :
  lifecycle (state_of (_onSandboxData CALL DATA EXC values st)) = lifecycle st.
Proof.
  unfold _onSandboxData.
  apply (for_each_keeps (fun st' => lifecycle st' = lifecycle st)); [| reflexivity].
  intros value st' H.
  destruct (js_index value 0), (js_index value 1); try assumption.
  now rewrite _onSandboxMsg_lifecycle.
Qed.

Lemma answer_call_lifecycle fname args st :
  lifecycle (state_of (answer_call DATA EXC error_toString fname args st)) = lifecycle st.
Proof.
  unfold answer_call, try_catch.
  destruct (call_exported fname args st) as [v | d | d]; try reflexivity.
  - generalize (_sendData_lifecycle DATA v st).
    now destruct (_sendData DATA v st).
  - generalize (_sendData_lifecycle EXC d st).
    now destruct (_sendData EXC d st).
Qed.

Lemma run_job_lifecycle i st :
  lifecycle (state_of (run_job DATA EXC error_toString i st)) = lifecycle st.
Proof.
  unfold run_job. destruct (jobs st !! i) as [[fname args] |]; [| reflexivity].
  now rewrite answer_call_lifecycle.
Qed.

End PumpLifecycle.

(** *** Timers *)

Lemma cleared_sublist (id : nat) (l : list (nat * Z)) (x : nat) :
  In x (map fst (filter (fun t => fst t <> id) l)) -> In x (map fst l).
Proof.
  induction l as [| t l IH]; [auto |].
  rewrite filter_cons. destruct (decide (fst t <> id)); simpl; intuition.
Qed.

Lemma cleared_NoDup (id : nat) (l : list (nat * Z)) :
  NoDup (map fst l) -> NoDup (map fst (filter (fun t => fst t <> id) l)).
Proof.
  induction l as [| t l IH]; [auto |]. simpl. intros H.
  apply NoDup_cons in H as [Hnew H].
  rewrite filter_cons. destruct (decide (fst t <> id)); [| auto].
  simpl. apply NoDup_cons. split; [| auto].
  intros Hin. apply Hnew. apply list_elem_of_In.
  apply (cleared_sublist id). now apply list_elem_of_In.
Qed.

Lemma cleared_fresh (id : nat) (l : list (nat * Z)) :
  Forall (fun t => (fst t < id)%nat) l -> filter (fun t => fst t <> id) l = l.
Proof.
  induction 1 as [| t l Ht _ IH]; [reflexivity |].
  rewrite filter_cons_True by lia. now rewrite IH.
Qed.

Lemma cleared_shrinks (id : nat) (l : list (nat * Z)) :
  In id (map fst l) -> (length (filter (fun t => fst t <> id) l) < length l)%nat.
Proof.
  intros H. apply in_map_iff in H as (t & Ht & Hin).
  apply (length_filter_lt _ _ t); [now apply list_elem_of_In | intros Hne; now apply Hne].
Qed.

Lemma clearTimeout_wf id st : timers_wf st -> timers_wf (clearTimeout id st).
Proof.
  unfold timers_wf, clearTimeout. members. intros [Hnodup Hbound]. split.
  - now apply cleared_NoDup.
  - apply Forall_forall. intros t Ht. apply list_elem_of_filter in Ht as [_ Ht].
    rewrite Forall_forall in Hbound. now apply Hbound.
Qed.

(** *** Settling the promise of a [shutdown()] call *)

Lemma settle_shutdown_idle i s st :
  (forall call, shutdowns st !! i = Some call -> awaited call <> None) ->
  settle_shutdown i s st = st.
Proof.
  intros H. unfold settle_shutdown.
  destruct (shutdowns st !! i) as [call |] eqn:E; [| reflexivity].
  specialize (H call eq_refl). now destruct (awaited call).
Qed.

Lemma settle_shutdown_first i s st call :
  shutdowns st !! i = Some call -> awaited call = None ->
  shutdowns (settle_shutdown i s st) =
    <[i := mkShutdownCall (timeoutID call) (Some s)]> (shutdowns st) /\
  shutdownResults (settle_shutdown i s st) = shutdownResults st ++ [(i, s)] /\
  timers (settle_shutdown i s st) =
    match s with
    | Resolved _ => filter (fun t => fst t <> timeoutID call) (timers st)
    | Rejected _ => timers st
    end.
Proof.
  intros Hcall Hnone. unfold settle_shutdown. rewrite Hcall, Hnone.
  now destruct s.
Qed.

Lemma settle_shutdown_length i s st :
  length (shutdowns (settle_shutdown i s st)) = length (shutdowns st).
Proof.
  unfold settle_shutdown.
  destruct (shutdowns st !! i) as [call |]; [| reflexivity].
  destruct (awaited call); [reflexivity |].
  destruct s; members; apply length_insert.
Qed.

Lemma calls_ok_append calls results id :
  calls_ok calls results -> calls_ok (calls ++ [mkShutdownCall id None]) results.
Proof.
  intros [Hnodup Hdone]. split; [assumption |]. intros i. rewrite Hdone. split.
  - intros (call & Hcall & Hset). exists call. split; [| assumption].
    now apply lookup_app_l_Some.
  - intros (call & Hcall & Hset).
    destruct (decide (i < length calls)%nat) as [Hlt | Hge].
    + exists call. rewrite lookup_app_l in Hcall by assumption. auto.
    + rewrite lookup_app_r in Hcall by lia.
      destruct (i - length calls)%nat; simpl in Hcall; [| discriminate].
      inversion Hcall; subst. now destruct Hset.
Qed.

Lemma calls_ok_settle calls results i call s :
  calls_ok calls results ->
  calls !! i = Some call -> awaited call = None ->
  calls_ok (<[i := mkShutdownCall (timeoutID call) (Some s)]> calls) (results ++ [(i, s)]).
Proof.
  intros [Hnodup Hdone] Hcall Hawait.
  assert (Hi : (i < length calls)%nat) by (apply lookup_lt_is_Some; eauto).
  split.
  - rewrite map_app. simpl. apply NoDup_app. repeat split.
    + assumption.
    + intros j Hj Hji. apply list_elem_of_In in Hji. simpl in Hji.
      destruct Hji as [<- | []]. apply list_elem_of_In, Hdone in Hj.
      destruct Hj as (call' & Hcall' & Hset). congruence.
    + apply NoDup_singleton.
  - intros j. rewrite map_app, in_app_iff. simpl. split.
    + intros [Hin | [<- | []]].
      * apply Hdone in Hin as (call' & Hcall' & Hset).
        destruct (decide (i = j)) as [<- | Hne]; [congruence |].
        exists call'. rewrite list_lookup_insert_ne by assumption. auto.
      * eexists. rewrite list_lookup_insert_eq by assumption.
        split; [reflexivity | discriminate].
    + intros (call' & Hcall' & Hset).
      destruct (decide (i = j)) as [<- | Hne]; [auto |].
      left. apply Hdone. exists call'.
      rewrite list_lookup_insert_ne in Hcall' by assumption. auto.
Qed.

Lemma settle_shutdown_calls_ok i s st :
  calls_ok (shutdowns st) (shutdownResults st) ->
  calls_ok (shutdowns (settle_shutdown i s st)) (shutdownResults (settle_shutdown i s st)).
Proof.
  intros H.
  destruct (shutdowns st !! i) as [call |] eqn:Hcall;
    [| rewrite settle_shutdown_idle; [assumption | congruence]].
  destruct (awaited call) as [s0 |] eqn:Hawait;
    [rewrite settle_shutdown_idle; [assumption | congruence] |].
  destruct (settle_shutdown_first i s st call Hcall Hawait) as (-> & -> & _).
  now apply calls_ok_settle.
Qed.

Lemma settle_shutdown_timers i s st :
  timers (settle_shutdown i s st) = timers st \/
  exists id, timers (settle_shutdown i s st) = filter (fun t => fst t <> id) (timers st).
Proof.
  unfold settle_shutdown.
  destruct (shutdowns st !! i) as [call |]; [| now left].
  destruct (awaited call); [now left |].
  destruct s; [right; now eexists | now left].
Qed.

Lemma settle_shutdown_inv i s st :
  lifecycle_inv st -> lifecycle_inv (settle_shutdown i s st).
Proof.
  intros (Hends & Hwf & Hone & Hopen & Hcalls).
  destruct (settle_shutdown_frame i s st) as (_ & Hout & _ & Hn).
  apply outbound_members in Hout as (Hw & Hops & _ & Hk).
  unfold lifecycle_inv, timers_wf. rewrite Hw, Hops, Hk, Hn.
  split; [assumption |].
  destruct (settle_shutdown_timers i s st) as [-> | [id ->]].
  - split; [assumption |]. split; [assumption |]. split; [assumption |].
    now apply settle_shutdown_calls_ok.
  - split; [apply (clearTimeout_wf id st Hwf) |].
    split; [pose proof (length_filter (fun t : nat * Z => fst t <> id) (timers st)); lia |].
    split; [| now apply settle_shutdown_calls_ok].
    intros H. destruct (Hopen H) as [-> ?]. auto.
Qed.

Lemma notify_shutdowns_inv s st :
  lifecycle_inv st -> lifecycle_inv (notify_shutdowns s st).
Proof.
  unfold notify_shutdowns. generalize (seq 0 (length (shutdowns st))). intros l.
  revert st. induction l as [| i l IH]; intros st H; simpl; [assumption |].
  apply IH. now apply settle_shutdown_inv.
Qed.

(** *** The handlers keep the invariant *)

Lemma shutdown_unfold st :
  shutdown st =
  _close (if _isWriteClosed st
          then settle_shutdown (length (shutdowns st)) (Resolved VUndefined)
                 (shutdown_registered st)
          else shutdown_registered st).
Proof. unfold shutdown, setTimeout. cbv zeta. cbn [fst snd]. reflexivity. Qed.

Lemma _close_inv st : lifecycle_inv st -> lifecycle_inv (_close st).
Proof.
  intros (Hends & Hwf & Hone & Hopen & Hcalls).
  destruct (_close_members st) as (_ & Hw & He).
  assert (Hsame : timers (_close st) = timers st /\ nextTimer (_close st) = nextTimer st /\
                  kills (_close st) = kills st /\ shutdowns (_close st) = shutdowns st /\
                  shutdownResults (_close st) = shutdownResults st).
  { unfold _close. members. now destruct (_isWriteClosed st). }
  destruct Hsame as (Ht & Hn & Hk & Hs & Hr).
  unfold lifecycle_inv, timers_wf. rewrite Hw, He, Ht, Hn, Hk, Hs, Hr, Hends.
  split_and!; try apply Hwf; try assumption; try discriminate.
  now destruct (_isWriteClosed st).
Qed.

Lemma shutdown_registered_then_settled st :
  timers_wf st ->
  let st' := settle_shutdown (length (shutdowns st)) (Resolved VUndefined)
               (shutdown_registered st) in
  shutdowns st' =
    <[length (shutdowns st) := mkShutdownCall (nextTimer st) (Some (Resolved VUndefined))]>
      (shutdowns st ++ [mkShutdownCall (nextTimer st) None]) /\
  shutdownResults st' = shutdownResults st ++ [(length (shutdowns st), Resolved VUndefined)] /\
  timers st' = timers st /\
  nextTimer st' = S (nextTimer st) /\
  outbound st' = outbound st.
Proof.
  intros [_ Hbound] st'.
  destruct (settle_shutdown_first (length (shutdowns st)) (Resolved VUndefined)
              (shutdown_registered st) (mkShutdownCall (nextTimer st) None))
    as (Hs & Hr & Ht).
  { unfold shutdown_registered. members. apply list_lookup_middle. reflexivity. }
  { reflexivity. }
  destruct (settle_shutdown_frame (length (shutdowns st)) (Resolved VUndefined)
              (shutdown_registered st)) as (_ & Hout & _ & Hn).
  subst st'. rewrite Hs, Hr, Ht, Hn, Hout. repeat split.
  unfold shutdown_registered. members. cbn [timeoutID].
  rewrite filter_app, (cleared_fresh _ _ Hbound), filter_cons_False, filter_nil.
  - apply app_nil_r.
  - simpl. intros H. now apply H.
Qed.

Lemma shutdown_inv st : lifecycle_inv st -> lifecycle_inv (shutdown st).
Proof.
  intros (Hends & Hwf & Hone & Hopen & Hcalls). rewrite shutdown_unfold.
  destruct (_isWriteClosed st) eqn:Hw.
  - apply _close_inv.
    destruct (shutdown_registered_then_settled st Hwf) as (Hs & Hr & Ht & Hn & Hout).
    apply outbound_members in Hout as (Hw' & Hops & _ & Hk).
    unfold lifecycle_inv, timers_wf. rewrite Hw', Hops, Hk, Ht, Hn, Hs, Hr, Hw.
    destruct Hwf as [Hnodup Hbound].
    split_and!; try assumption; try discriminate.
    + eapply Forall_impl; [exact Hbound |]. simpl. intros. lia.
    + eapply calls_ok_settle with (call := mkShutdownCall (nextTimer st) None).
      * now apply calls_ok_append.
      * apply list_lookup_middle. reflexivity.
      * reflexivity.
  - destruct (Hopen eq_refl) as [Htimers Hkills].
    unfold _close, shutdown_registered. members. rewrite Hw.
    unfold lifecycle_inv, timers_wf. members.
    rewrite ends_end, Hends, Htimers, Hkills. simpl.
    split_and!; try discriminate; try lia.
    + apply NoDup_singleton.
    + repeat constructor.
    + now apply calls_ok_append.
Qed.

Lemma onTimeout_inv id st : lifecycle_inv st -> lifecycle_inv (onTimeout id st).
Proof.
  intros Hinv. unfold onTimeout, timer_pending.
  destruct (bool_decide (id ∈ map fst (timers st))) eqn:Hpending; [| assumption].
  apply bool_decide_eq_true, list_elem_of_In in Hpending.
  destruct Hinv as (Hends & Hwf & Hone & Hopen & Hcalls).
  pose proof (cleared_shrinks id (timers st) Hpending) as Hshrink.
  pose proof (clearTimeout_wf id st Hwf) as Hwf'.
  unfold lifecycle_inv, timers_wf in *. unfold clearTimeout in *. members.
  rewrite length_app. simpl.
  split_and!; try assumption; try apply Hwf'; try lia.
  intros Hw. destruct (Hopen Hw) as [Hnil _]. rewrite Hnil in Hpending. destruct Hpending.
Qed.

Lemma on_child_close_inv code signal st :
  lifecycle_inv st -> lifecycle_inv (on_child_close code signal st).
Proof.
  intros H. destruct (on_child_close_cases code signal st) as [[entry ->] | ->].
  - apply notify_shutdowns_inv.
    eapply lifecycle_inv_same; [| apply _close_inv, H]. reflexivity.
  - now apply _close_inv.
Qed.

Lemma on_child_exit_inv code signal st :
  lifecycle_inv st -> lifecycle_inv (on_child_exit code signal st).
Proof. apply notify_shutdowns_inv. Qed.

Lemma on_child_error_inv err st :
  lifecycle_inv st -> lifecycle_inv (on_child_error err st).
Proof.
  intros H. unfold on_child_error, _onError. apply notify_shutdowns_inv.
  eapply lifecycle_inv_same; [| apply _close_inv, H]. reflexivity.
Qed.

Lemma new_NSandbox_inv exports GRIST_THROTTLE_CPU :
  lifecycle_inv (new_NSandbox exports GRIST_THROTTLE_CPU).
Proof.
  unfold lifecycle_inv, timers_wf, calls_ok. simpl.
  split_and!; try constructor; try lia; try reflexivity.
  intros (call & Hcall & _). discriminate.
Qed.

Section Reachable.

Variables CALL DATA EXC : value.
Variable error_toString : error -> jsstring.

Lemma step_inv ev st :
  lifecycle_inv st -> lifecycle_inv (step CALL DATA EXC error_toString st ev).
Proof.
  intros H. destruct ev; simpl.
  - eapply lifecycle_inv_same; [apply pyCall_lifecycle | assumption].
  - now apply shutdown_inv.
  - eapply lifecycle_inv_same; [apply _onSandboxData_lifecycle | assumption].
  - eapply lifecycle_inv_same; [apply _onSandboxClose_lifecycle | assumption].
  - eapply lifecycle_inv_same; [| exact H]. unfold on_read_error.
    now rewrite _onSandboxClose_lifecycle.
  - eapply lifecycle_inv_same; [| exact H]. unfold on_write_error.
    now destruct (_isWriteClosed st).
  - eapply lifecycle_inv_same; [apply run_job_lifecycle | assumption].
  - now apply onTimeout_inv.
  - now apply on_child_close_inv.
  - now apply on_child_exit_inv.
  - now apply on_child_error_inv.
Qed.

Lemma run_inv evs st :
  lifecycle_inv st -> lifecycle_inv (run CALL DATA EXC error_toString evs st).
Proof.
  unfold run. revert st. induction evs as [| ev evs IH]; intros st H; simpl; [assumption |].
  apply IH. now apply step_inv.
Qed.

End Reachable.

(** *** Every caller observes completion *)

Lemma settle_shutdown_keeps i j s st :
  call_settled (shutdowns st) j -> call_settled (shutdowns (settle_shutdown i s st)) j.
Proof.
  intros (call & Hcall & Hset).
  destruct (shutdowns st !! i) as [call' |] eqn:Hi;
    [| rewrite settle_shutdown_idle; [now exists call | congruence]].
  destruct (awaited call') as [s0 |] eqn:Hawait;
    [rewrite settle_shutdown_idle; [now exists call | congruence] |].
  destruct (settle_shutdown_first i s st call' Hi Hawait) as (-> & _).
  destruct (decide (i = j)) as [<- | Hne]; [congruence |].
  exists call. now rewrite list_lookup_insert_ne.
Qed.

Lemma settle_shutdown_sets i s st :
  (i < length (shutdowns st))%nat -> call_settled (shutdowns (settle_shutdown i s st)) i.
Proof.
  intros Hi. destruct (lookup_lt_is_Some_2 _ _ Hi) as [call Hcall].
  destruct (awaited call) as [s0 |] eqn:Hawait.
  - rewrite settle_shutdown_idle; [| congruence]. exists call. split; congruence.
  - destruct (settle_shutdown_first i s st call Hcall Hawait) as (-> & _).
    eexists. rewrite list_lookup_insert_eq by assumption. split; [reflexivity | discriminate].
Qed.

Lemma settle_all (s : settlement) (l : list nat) (st : NSandbox) :
  let st' := fold_left (fun st i => settle_shutdown i s st) l st in
  length (shutdowns st') = length (shutdowns st) /\
  (forall j, call_settled (shutdowns st) j -> call_settled (shutdowns st') j) /\
  (forall j, In j l -> (j < length (shutdowns st))%nat -> call_settled (shutdowns st') j).
Proof.
  revert st. induction l as [| i l IH]; intros st; simpl.
  - split_and!; [reflexivity | auto | intros j []].
  - destruct (IH (settle_shutdown i s st)) as (Hlen & Hkeep & Hset).
    rewrite settle_shutdown_length in Hlen, Hset. split_and!.
    + assumption.
    + intros j Hj. now apply Hkeep, settle_shutdown_keeps.
    + intros j [<- | Hin] Hj.
      * now apply Hkeep, settle_shutdown_sets.
      * now apply Hset.
Qed.

Lemma notify_shutdowns_settles s st :
  length (shutdowns (notify_shutdowns s st)) = length (shutdowns st) /\
  forall i, (i < length (shutdowns st))%nat ->
            call_settled (shutdowns (notify_shutdowns s st)) i.
Proof.
  unfold notify_shutdowns.
  destruct (settle_all s (seq 0 (length (shutdowns st))) st) as (Hlen & _ & Hset).
  split; [assumption |]. intros i Hi. apply Hset; [| assumption].
  apply in_seq. lia.
Qed.





Section Completion.

Variables CALL DATA EXC : value.
Variable error_toString : error -> jsstring.





End Completion.


(** *** The kill timer *)

Lemma shutdown_open st :
  lifecycle_inv st -> _isWriteClosed st = false ->
  _streamToSandbox (shutdown st) = _streamToSandbox st ++ [SEnd] /\
  timers (shutdown st) = [(nextTimer st, KILL_DELAY)] /\
  kills (shutdown st) = [] /\
  shutdowns (shutdown st) = shutdowns st ++ [mkShutdownCall (nextTimer st) None].
Proof.
  intros (_ & _ & _ & Hopen & _) Hw. destruct (Hopen Hw) as [Ht Hk].
  rewrite shutdown_unfold, Hw. unfold _close, shutdown_registered. members.
  rewrite Hw. members. now rewrite Ht, Hk.
Qed.

Lemma settle_shutdown_other i j s st :
  i <> j -> shutdowns (settle_shutdown i s st) !! j = shutdowns st !! j.
Proof.
  intros Hne. unfold settle_shutdown.
  destruct (shutdowns st !! i) as [call |]; [| reflexivity].
  destruct (awaited call); [reflexivity |].
  destruct s; members; now apply list_lookup_insert_ne.
Qed.

Lemma settle_shutdown_timers_sublist i s st x :
  In x (map fst (timers (settle_shutdown i s st))) -> In x (map fst (timers st)).
Proof.
  destruct (settle_shutdown_timers i s st) as [-> | [id ->]]; [auto |].
  apply cleared_sublist.
Qed.

Lemma settle_fold_timers_sublist s l st x :
  In x (map fst (timers (fold_left (fun st i => settle_shutdown i s st) l st))) ->
  In x (map fst (timers st)).
Proof.
  revert st. induction l as [| i l IH]; intros st; simpl; [auto |].
  intros H. apply IH in H. now apply settle_shutdown_timers_sublist in H.
Qed.

(** A listener that resolves the promise of a pending call clears the
    timer of the call. *)
Lemma settle_fold_clears v l st i call :
  In i l -> shutdowns st !! i = Some call -> awaited call = None ->
  ~ In (timeoutID call)
      (map fst (timers (fold_left (fun st i => settle_shutdown i (Resolved v) st) l st))).
Proof.
  revert st. induction l as [| j l IH]; intros st Hin Hcall Hawait; [destruct Hin |].
  simpl. destruct (decide (j = i)) as [-> | Hne].
  - intros H. apply settle_fold_timers_sublist in H.
    destruct (settle_shutdown_first i (Resolved v) st call Hcall Hawait) as (_ & _ & Ht).
    rewrite Ht in H. apply in_map_iff in H as (t & Ht1 & Ht2).
    apply list_elem_of_In, list_elem_of_filter in Ht2 as [Ht2 _]. now apply Ht2.
  - destruct Hin as [-> | Hin]; [now destruct Hne |].
    apply IH; [assumption | | assumption].
    now rewrite settle_shutdown_other.
Qed.

Lemma notify_clears_timer v st i id :
  shutdowns st !! i = Some (mkShutdownCall id None) ->
  timer_pending id (notify_shutdowns (Resolved v) st) = false.
Proof.
  intros Hcall. unfold timer_pending. apply bool_decide_eq_false.
  rewrite list_elem_of_In. unfold notify_shutdowns.
  apply (settle_fold_clears v _ st i (mkShutdownCall id None)); [| assumption | reflexivity].
  apply in_seq. apply lookup_lt_Some in Hcall. lia.
Qed.

Lemma not_pending_stays id st st' :
  (forall x, In x (map fst (timers st')) -> In x (map fst (timers st))) ->
  timer_pending id st = false -> timer_pending id st' = false.
Proof.
  unfold timer_pending. intros Hsub H.
  apply bool_decide_eq_false in H. apply bool_decide_eq_false.
  rewrite list_elem_of_In in *. auto.
Qed.

Lemma onTimeout_fires id delay st :
  timers st = [(id, delay)] ->
  timers (onTimeout id st) = [] /\
  kills (onTimeout id st) = kills st ++ [SIGKILL] /\
  shutdowns (onTimeout id st) = shutdowns st.
Proof.
  intros Ht. unfold onTimeout, timer_pending. rewrite Ht. simpl.
  rewrite bool_decide_eq_true_2 by apply list_elem_of_here.
  unfold clearTimeout. members. rewrite Ht.
  rewrite filter_cons_False by (simpl; intros H; now apply H).
  now rewrite filter_nil.
Qed.

Lemma no_timer_not_pending id st : timers st = [] -> timer_pending id st = false.
Proof.
  intros Ht. unfold timer_pending. rewrite Ht. apply bool_decide_eq_false.
  apply not_elem_of_nil.
Qed.

Lemma timer_fresh st : timers_wf st -> timer_pending (nextTimer st) st = false.
Proof.
  intros [_ Hbound]. unfold timer_pending.
  apply bool_decide_eq_false. rewrite list_elem_of_In, in_map_iff.
  intros (t & Hid & Hin). rewrite Forall_forall in Hbound.
  apply list_elem_of_In, Hbound in Hin. lia.
Qed.

Lemma _close_lifecycle_members st :
  timers (_close st) = timers st /\ nextTimer (_close st) = nextTimer st /\
  kills (_close st) = kills st /\ shutdowns (_close st) = shutdowns st /\
  shutdownResults (_close st) = shutdownResults st.
Proof. unfold _close. members. now destruct (_isWriteClosed st). Qed.


(** *** A call that waits is backed by its timer *)








Section Backed.

Variables CALL DATA EXC : value.
Variable error_toString : error -> jsstring.





End Backed.


(** [shutdown()] is called twice and the process then exits: the stream is
    ended once, no signal is sent, no timer is left, and both calls have
    returned, the second at once and the first at the exit. *)
Example shutdown_twice :
  let st := run MsgCode_CALL MsgCode_DATA MsgCode_EXC describe_error
              [EvShutdown; EvShutdown; EvChildExit (VNum 0) VNull; EvChildClose (VNum 0) VNull]
              (new_NSandbox None false) in
  _streamToSandbox st = [SEnd] /\ kills st = [] /\ timers st = [] /\
  shutdownResults st = [(1%nat, Resolved VUndefined); (0%nat, Resolved (VNum 0))].
Proof. repeat split. Qed.

(** C6, at the input where the code departs from it: [shutdown()] is
    called while the outbound stream is open, and [childProc] emits
    ['error'] while the call waits, here because the process could not be
    spawned, after which it emits ['close'].  The error rejects the promise
    that [shutdown()] awaits, so that the call throws and never gets to
    its [clearTimeout]: after ['close'] the kill timer is still pending,
    and when it goes off SIGKILL is sent.  It is the same when the error
    comes from a process that runs and then exits.  Without the error, the
    exit lets the call return and clear its timer, which then sends
    nothing. *)
Theorem kill_timer_outlives_the_exit :
  let not_spawned :=
    run MsgCode_CALL MsgCode_DATA MsgCode_EXC describe_error
      [EvShutdown; EvChildError (js "Error: spawn sandbox/nacl/bin/sel_ldr ENOENT");
       EvChildClose (VNum (-2)) VNull]
      (new_NSandbox None false) in
  let exited :=
    run MsgCode_CALL MsgCode_DATA MsgCode_EXC describe_error
      [EvShutdown; EvChildError (js "Error: kill EPERM");
       EvChildExit (VNum 0) VNull; EvChildClose (VNum 0) VNull]
      (new_NSandbox None false) in
  let exited_without_error :=
    run MsgCode_CALL MsgCode_DATA MsgCode_EXC describe_error
      [EvShutdown; EvChildExit (VNum 0) VNull; EvChildClose (VNum 0) VNull]
      (new_NSandbox None false) in
  (_streamToSandbox not_spawned = [SEnd] /\
   shutdownResults not_spawned =
     [(0%nat, Rejected (JSError (js "Error: spawn sandbox/nacl/bin/sel_ldr ENOENT")))] /\
   timers not_spawned = [(0%nat, KILL_DELAY)] /\
   kills not_spawned = [] /\
   kills (step MsgCode_CALL MsgCode_DATA MsgCode_EXC describe_error not_spawned
            (EvTimeout 0)) = [SIGKILL]) /\
  (shutdownResults exited = [(0%nat, Rejected (JSError (js "Error: kill EPERM")))] /\
   timers exited = [(0%nat, KILL_DELAY)] /\
   kills (step MsgCode_CALL MsgCode_DATA MsgCode_EXC describe_error exited (EvTimeout 0)) =
     [SIGKILL]) /\
  (shutdownResults exited_without_error = [(0%nat, Resolved (VNum 0))] /\
   timers exited_without_error = [] /\
   kills (step MsgCode_CALL MsgCode_DATA MsgCode_EXC describe_error exited_without_error
            (EvTimeout 0)) = []).
Proof. repeat split. Qed.

(** ** The registry is well formed in every state *)

Lemma registry_wf_same st st' :
  _pendingReads st' = _pendingReads st -> settlements st' = settlements st ->
  promises st' = promises st -> registry_wf st -> registry_wf st'.
Proof. unfold registry_wf. now intros -> -> ->. Qed.

Lemma registry_wf_pump st st' : pump st' = pump st -> registry_wf st -> registry_wf st'.
Proof.
  intros H. apply pump_members in H as (_ & ? & _ & ? & ? & _).
  now apply registry_wf_same.
Qed.

Lemma registry_wf_settle p rest s st :
  _pendingReads st = p :: rest -> registry_wf st ->
  registry_wf (settle p s (set_pendingReads rest st)).
Proof.
  intros Hq (Hnodup & Hpending & Hsettled). rewrite Hq in *.
  apply Forall_cons in Hpending as [Hp Hpending].
  unfold registry_wf. members. rewrite map_app. simpl. split_and!.
  - rewrite app_assoc, <- Permutation_cons_append. exact Hnodup.
  - assumption.
  - apply Forall_app. split; [assumption | now constructor].
Qed.

Lemma registry_wf_drop p rest st :
  _pendingReads st = p :: rest -> registry_wf st ->
  registry_wf (set_pendingReads rest st).
Proof.
  intros Hq (Hnodup & Hpending & Hsettled). rewrite Hq in *.
  apply Forall_cons in Hpending as [Hp Hpending].
  simpl in Hnodup. apply NoDup_cons in Hnodup as [_ Hnodup].
  unfold registry_wf. members. now split_and!.
Qed.

Lemma registry_wf_close st : registry_wf st -> registry_wf (_onSandboxClose st).
Proof.
  intros (Hnodup & Hpending & Hsettled). rewrite _onSandboxClose_spec.
  unfold registry_wf. members. rewrite map_app, map_map. simpl. rewrite map_id.
  split_and!.
  - now rewrite Permutation_app_comm.
  - constructor.
  - apply Forall_app. now split.
Qed.

Section Registry.

Variables CALL DATA EXC : value.
Variable error_toString : error -> jsstring.

Lemma pyCall_registry_wf funcName varArgs st :
  registry_wf st -> registry_wf (state_of (pyCall CALL funcName varArgs st)).
Proof.
  intros (Hnodup & Hpending & Hsettled).
  unfold pyCall, bind, _sendData. destruct (_isReadClosed st); [now split_and! |].
  unfold _pyCallWait, registry_wf. members. split_and!.
  - rewrite <- app_assoc. simpl. rewrite <- Permutation_middle.
    apply NoDup_cons. split; [| assumption].
    intros Hin. apply elem_of_app in Hin as [Hin | Hin].
    + rewrite Forall_forall in Hpending. specialize (Hpending _ Hin). lia.
    + rewrite Forall_forall in Hsettled. specialize (Hsettled _ Hin). lia.
  - apply Forall_app. split; [| repeat constructor].
    eapply Forall_impl; [exact Hpending |]. simpl. intros. lia.
  - eapply Forall_impl; [exact Hsettled |]. simpl. intros. lia.
Qed.

Lemma _onSandboxMsg_registry_wf msgCode data st :
  registry_wf st -> registry_wf (state_of (_onSandboxMsg CALL DATA EXC msgCode data st)).
Proof.
  intros H. unfold _onSandboxMsg. destruct (strict_eq msgCode CALL).
  - destruct (negb (isArray data) || Nat.eqb (length (elements data)) 0); [easy |].
    cbv zeta. now destruct (to_string _).
  - destruct (_pendingReads st) as [| p rest] eqn:Hq; [assumption |]. cbv zeta.
    destruct (strict_eq msgCode EXC); [now apply registry_wf_settle |].
    destruct (strict_eq msgCode DATA); [now apply registry_wf_settle |].
    simpl. eapply registry_wf_same; [| | | eapply registry_wf_drop; eassumption]; reflexivity.
Qed.

Lemma step_registry_wf ev st :
  registry_wf st -> registry_wf (step CALL DATA EXC error_toString st ev).
Proof.
  intros H. destruct ev; cbn [step].
  - now apply pyCall_registry_wf.
  - eapply registry_wf_pump; [apply shutdown_pump | assumption].
  - unfold _onSandboxData. apply for_each_keeps; [| assumption].
    intros value st' H'. destruct (js_index value 0), (js_index value 1); try assumption.
    now apply _onSandboxMsg_registry_wf.
  - now apply registry_wf_close.
  - unfold on_read_error. apply registry_wf_close.
    eapply registry_wf_same; [| | | exact H]; reflexivity.
  - eapply registry_wf_pump; [apply on_write_error_pump | assumption].
  - unfold run_job. destruct (jobs st !! i) as [[fname args] |]; [| assumption].
    destruct (answer_call_registry DATA EXC error_toString fname args
                (set_jobs (delete i (jobs st)) st))
      as (Hq & _ & Hs & Hp & _).
    eapply registry_wf_same; [exact Hq | exact Hs | exact Hp | assumption].
  - eapply registry_wf_pump; [apply onTimeout_pump | assumption].
  - eapply registry_wf_pump; [apply on_child_close_pump | assumption].
  - eapply registry_wf_pump; [apply on_child_exit_pump | assumption].
  - eapply registry_wf_pump; [apply on_child_error_pump | assumption].
Qed.

(** Every promise is settled at most once, in every state the controller
    reaches. *)
Lemma run_registry_wf evs exports GRIST_THROTTLE_CPU :
  registry_wf (run CALL DATA EXC error_toString evs (new_NSandbox exports GRIST_THROTTLE_CPU)).
Proof.
  assert (H : registry_wf (new_NSandbox exports GRIST_THROTTLE_CPU)).
  { unfold registry_wf. simpl. split_and!; constructor. }
  revert H. generalize (new_NSandbox exports GRIST_THROTTLE_CPU).
  unfold run. induction evs as [| ev evs IH]; intros st H; simpl; [assumption |].
  apply IH. now apply step_registry_wf.
Qed.

End Registry.

(** * Further properties *)

(** ** What is written to the outbound stream *)

Lemma written_app ops1 ops2 : written (ops1 ++ ops2) = written ops1 ++ written ops2.
Proof.
  unfold written. apply omap_app.
Qed.

Lemma _close_stream st :
  _streamToSandbox (_close st) =
  _streamToSandbox st ++ (if _isWriteClosed st then [] else [SEnd]).
Proof.
  unfold _close. members. destruct (_isWriteClosed st); members;
    [now rewrite app_nil_r | reflexivity].
Qed.

Lemma _close_written st :
  written (_streamToSandbox (_close st)) = written (_streamToSandbox st).
Proof.
  rewrite _close_stream, written_app. destruct (_isWriteClosed st); apply app_nil_r.
Qed.

Lemma notify_shutdowns_stream s st :
  _streamToSandbox (notify_shutdowns s st) = _streamToSandbox st.
Proof.
  destruct (notify_shutdowns_frame s st) as (_ & Hout & _).
  now apply outbound_members in Hout as (_ & -> & _).
Qed.

Lemma shutdown_stream st :
  _streamToSandbox (shutdown st) =
  _streamToSandbox st ++ (if _isWriteClosed st then [] else [SEnd]).
Proof.
  rewrite shutdown_unfold, _close_stream.
  destruct (_isWriteClosed st) eqn:Hw.
  - destruct (settle_shutdown_frame (length (shutdowns st)) (Resolved VUndefined)
                (shutdown_registered st)) as (_ & Hout & _).
    apply outbound_members in Hout as (-> & -> & _).
    unfold shutdown_registered. members. now rewrite Hw.
  - unfold shutdown_registered. members. now rewrite Hw.
Qed.

(** The events of the process, the timers and the outbound stream write no
    frame. *)
Lemma quiet_events_written st :
  written (_streamToSandbox (shutdown st)) = written (_streamToSandbox st) /\
  (forall id, written (_streamToSandbox (onTimeout id st)) = written (_streamToSandbox st)) /\
  (forall code signal,
     written (_streamToSandbox (on_child_close code signal st)) =
     written (_streamToSandbox st)) /\
  (forall code signal,
     written (_streamToSandbox (on_child_exit code signal st)) =
     written (_streamToSandbox st)) /\
  (forall err,
     written (_streamToSandbox (on_child_error err st)) = written (_streamToSandbox st)) /\
  (forall err,
     written (_streamToSandbox (on_write_error err st)) = written (_streamToSandbox st)) /\
  written (_streamToSandbox (_onSandboxClose st)) = written (_streamToSandbox st).
Proof.
  split_and!.
  - rewrite shutdown_stream, written_app. destruct (_isWriteClosed st); apply app_nil_r.
  - intros id. unfold onTimeout. now destruct (timer_pending id st).
  - intros code signal.
    rewrite (proj1 (proj2 (outbound_members _ _ (on_child_close_outbound code signal st)))).
    apply _close_written.
  - intros code signal. unfold on_child_exit. now rewrite notify_shutdowns_stream.
  - intros err. unfold on_child_error. rewrite notify_shutdowns_stream.
    unfold _onError. members. apply _close_written.
  - intros err. unfold on_write_error. now destruct (_isWriteClosed st).
  - now rewrite _onSandboxClose_spec.
Qed.

Lemma _onSandboxMsg_wire (CALL DATA EXC msgCode data : value) (st : NSandbox) :
  let st' := state_of (_onSandboxMsg CALL DATA EXC msgCode data st) in
  _streamToSandbox st' = _streamToSandbox st /\
  promises st' = promises st /\ _isReadClosed st' = _isReadClosed st.
Proof.
  unfold _onSandboxMsg. destruct (strict_eq msgCode CALL).
  - destruct (negb (isArray data) || Nat.eqb (length (elements data)) 0); [easy |].
    cbv zeta. now destruct (to_string _).
  - destruct (_pendingReads st); [now split_and! |]. cbv zeta.
    now repeat destruct (strict_eq _ _).
Qed.

Lemma _onSandboxData_wire (CALL DATA EXC : value) (values : list value) (st : NSandbox) :
  let st' := state_of (_onSandboxData CALL DATA EXC values st) in
  _streamToSandbox st' = _streamToSandbox st /\
  promises st' = promises st /\ _isReadClosed st' = _isReadClosed st.
Proof.
  unfold _onSandboxData.
  apply (for_each_keeps
           (fun st' => _streamToSandbox st' = _streamToSandbox st /\
                       promises st' = promises st /\ _isReadClosed st' = _isReadClosed st));
    [| now split_and!].
  intros value st' (H1 & H2 & H3).
  destruct (js_index value 0), (js_index value 1); try now split_and!.
  destruct (_onSandboxMsg_wire CALL DATA EXC v v0 st') as (-> & -> & ->). now split_and!.
Qed.

Lemma written_write ops msgCode data :
  written (ops ++ [SWrite msgCode data]) = written ops ++ [(msgCode, data)].
Proof. now rewrite written_app. Qed.

Lemma calls_written_write CALL ops msgCode data :
  calls_written CALL (ops ++ [SWrite msgCode data]) =
  (calls_written CALL ops + if strict_eq msgCode CALL then 1 else 0)%nat.
Proof.
  unfold calls_written. rewrite written_write, List.filter_app, length_app. simpl.
  now destruct (strict_eq msgCode CALL).
Qed.

Lemma calls_written_same CALL ops ops' :
  written ops' = written ops -> calls_written CALL ops' = calls_written CALL ops.
Proof. unfold calls_written. now intros ->. Qed.

Section Wire.

Variables CALL DATA EXC : value.
Variable error_toString : error -> jsstring.

(** What sending an answer does to the outbound stream: nothing, or one
    [DATA] or [EXC] frame; nothing when the inbound pipe is closed. *)
Lemma answer_call_wire fname args st :
  let st' := state_of (answer_call DATA EXC error_toString fname args st) in
  promises st' = promises st /\ _isReadClosed st' = _isReadClosed st /\
  (_isReadClosed st = true -> _streamToSandbox st' = _streamToSandbox st) /\
  (_streamToSandbox st' = _streamToSandbox st \/
   (exists ret, _streamToSandbox st' = _streamToSandbox st ++ [SWrite DATA ret]) \/
   (exists description,
      _streamToSandbox st' = _streamToSandbox st ++ [SWrite EXC description])).
Proof.
  unfold answer_call, try_catch, _sendData.
  destruct (call_exported fname args st) as [ret | description | failure];
    destruct (_isReadClosed st) eqn:Hc; members; rewrite ?Hc;
    split_and!; try reflexivity; try discriminate; eauto.
Qed.

Lemma run_job_wire i st :
  let st' := state_of (run_job DATA EXC error_toString i st) in
  promises st' = promises st /\ _isReadClosed st' = _isReadClosed st /\
  (_isReadClosed st = true -> _streamToSandbox st' = _streamToSandbox st) /\
  (_streamToSandbox st' = _streamToSandbox st \/
   (exists ret, _streamToSandbox st' = _streamToSandbox st ++ [SWrite DATA ret]) \/
   (exists description,
      _streamToSandbox st' = _streamToSandbox st ++ [SWrite EXC description])).
Proof.
  unfold run_job. destruct (jobs st !! i) as [[fname args] |].
  - apply (answer_call_wire fname args (set_jobs (delete i (jobs st)) st)).
  - simpl. split_and!; auto.
Qed.

Lemma step_after_read_close ev st :
  _isReadClosed st = true ->
  _isReadClosed (step CALL DATA EXC error_toString st ev) = true /\
  written (_streamToSandbox (step CALL DATA EXC error_toString st ev)) =
  written (_streamToSandbox st).
Proof.
  intros Hc.
  assert (Hpump : forall st', pump st' = pump st -> _isReadClosed st' = true).
  { intros st' H. apply pump_members in H as (_ & _ & -> & _). exact Hc. }
  destruct (quiet_events_written st) as (Q1 & Q2 & Q3 & Q4 & Q5 & Q6 & Q7).
  destruct ev; cbn [step].
  - unfold pyCall, bind. rewrite _sendData_closed by assumption. now split.
  - split; [apply Hpump, shutdown_pump | exact Q1].
  - destruct (_onSandboxData_wire CALL DATA EXC values st) as (-> & _ & ->). now split.
  - split; [| exact Q7]. now rewrite _onSandboxClose_spec.
  - unfold on_read_error. rewrite _onSandboxClose_spec. now split.
  - split; [apply Hpump, on_write_error_pump | apply Q6].
  - destruct (run_job_wire i st) as (_ & -> & Hsame & _). split; [exact Hc |].
    now rewrite Hsame.
  - split; [apply Hpump, onTimeout_pump | apply Q2].
  - split; [apply Hpump, on_child_close_pump | apply Q3].
  - split; [apply Hpump, on_child_exit_pump | apply Q4].
  - split; [apply Hpump, on_child_error_pump | apply Q5].
Qed.

End Wire.

(** X1. Once the inbound pipe is closed, whatever happens next, it stays
    closed and not one more frame is written to the sandbox: calls throw,
    and answers to earlier calls of the sandbox are dropped. *)
Theorem no_frame_after_inbound_close (CALL DATA EXC : value)
    (error_toString : error -> jsstring) (evs : list event) (st : NSandbox) :
  _isReadClosed st = true ->
  _isReadClosed (run CALL DATA EXC error_toString evs st) = true /\
  written (_streamToSandbox (run CALL DATA EXC error_toString evs st)) =
  written (_streamToSandbox st).
Proof.
  unfold run. revert st. induction evs as [| ev evs IH]; intros st Hc; simpl; [now split |].
  destruct (step_after_read_close CALL DATA EXC error_toString ev st Hc) as [Hc' Hw].
  destruct (IH _ Hc') as [Hc'' Hw']. split; [exact Hc'' | congruence].
Qed.

(** The sandbox has sent a call, the inbound pipe ends, and then the
    answer is due, a call is made and the process exits: the one frame
    written stays the only one. *)
Lemma no_frame_after_inbound_close_witness :
  written
    (_streamToSandbox
       (run MsgCode_CALL MsgCode_DATA MsgCode_EXC describe_error
          [EvAnswer 0; EvPyCall (js "add") []; EvChildClose (VNum 0) VNull]
          (run MsgCode_CALL MsgCode_DATA MsgCode_EXC describe_error
             [EvPyCall (js "f") [];
              EvData [frame_value (MsgCode_CALL, VArr [VStr (js "g")])]; EvReadEnd]
             (new_NSandbox None false)))) =
  [(MsgCode_CALL, VArr [VStr (js "f")])].
Proof.
  rewrite (proj2 (no_frame_after_inbound_close MsgCode_CALL MsgCode_DATA MsgCode_EXC
                    describe_error
                    [EvAnswer 0; EvPyCall (js "add") []; EvChildClose (VNum 0) VNull]
                    (run MsgCode_CALL MsgCode_DATA MsgCode_EXC describe_error
                       [EvPyCall (js "f") [];
                        EvData [frame_value (MsgCode_CALL, VArr [VStr (js "g")])];
                        EvReadEnd]
                       (new_NSandbox None false))
                    eq_refl)).
  reflexivity.
Defined.

Section CallsWritten.

Variables CALL DATA EXC : value.
Variable error_toString : error -> jsstring.
Hypothesis codes : codes_distinct CALL DATA EXC = true.

Lemma answers_are_no_calls :
  strict_eq CALL CALL = true /\ strict_eq DATA CALL = false /\ strict_eq EXC CALL = false.
Proof.
  destruct (codes_primitive _ _ _ codes) as (HC & HD & HE). split_and!.
  - now apply strict_eq_refl.
  - apply (DATA_frame _ _ _ codes). now apply strict_eq_refl.
  - apply (EXC_frame _ _ _ codes). now apply strict_eq_refl.
Qed.

Lemma step_calls_written ev st :
  calls_written CALL (_streamToSandbox st) = promises st ->
  calls_written CALL (_streamToSandbox (step CALL DATA EXC error_toString st ev)) =
  promises (step CALL DATA EXC error_toString st ev).
Proof.
  intros H. destruct answers_are_no_calls as (HC & HD & HE).
  assert (Hquiet : forall st', written (_streamToSandbox st') = written (_streamToSandbox st) ->
                               pump st' = pump st ->
                               calls_written CALL (_streamToSandbox st') = promises st').
  { intros st' Hw Hp. apply pump_members in Hp as (_ & _ & _ & -> & _).
    now rewrite (calls_written_same _ _ _ Hw). }
  destruct (quiet_events_written st) as (Q1 & Q2 & Q3 & Q4 & Q5 & Q6 & Q7).
  destruct ev; cbn [step].
  - unfold pyCall, bind, _sendData. destruct (_isReadClosed st); [exact H |].
    unfold _pyCallWait. members. rewrite calls_written_write, HC. lia.
  - apply Hquiet; [exact Q1 | apply shutdown_pump].
  - destruct (_onSandboxData_wire CALL DATA EXC values st) as (-> & -> & _). exact H.
  - unfold on_read_end. now rewrite _onSandboxClose_spec.
  - unfold on_read_error. now rewrite _onSandboxClose_spec.
  - apply Hquiet; [apply Q6 | apply on_write_error_pump].
  - destruct (run_job_wire DATA EXC error_toString i st)
      as (-> & _ & _ & [-> | [[ret ->] | [description ->]]]);
      rewrite ?calls_written_write, ?HD, ?HE; lia.
  - apply Hquiet; [apply Q2 | apply onTimeout_pump].
  - apply Hquiet; [apply Q3 | apply on_child_close_pump].
  - apply Hquiet; [apply Q4 | apply on_child_exit_pump].
  - apply Hquiet; [apply Q5 | apply on_child_error_pump].
Qed.

End CallsWritten.

(** X2. In every state the controller reaches from its construction, the
    [CALL] frames written to the sandbox are as many as the promises that
    [pyCall] has returned: a call that throws writes nothing, a call that
    returns a promise has written exactly one frame, and nothing else
    writes a [CALL] frame.  The pending calls and the settlements together
    are never more than that. *)
Theorem one_CALL_frame_per_promise (CALL DATA EXC : value)
    (error_toString : error -> jsstring) (exports : option JSObject)
    (GRIST_THROTTLE_CPU : bool) (evs : list event) :
  codes_distinct CALL DATA EXC = true ->
  let st := run CALL DATA EXC error_toString evs (new_NSandbox exports GRIST_THROTTLE_CPU) in
  calls_written CALL (_streamToSandbox st) = promises st /\
  (length (_pendingReads st) + length (settlements st) <= promises st)%nat.
Proof.
  intros codes st. split.
  - subst st. unfold run.
    assert (H : calls_written CALL (_streamToSandbox (new_NSandbox exports GRIST_THROTTLE_CPU)) =
                promises (new_NSandbox exports GRIST_THROTTLE_CPU)) by reflexivity.
    revert H. generalize (new_NSandbox exports GRIST_THROTTLE_CPU).
    induction evs as [| ev evs IH]; intros s H; simpl; [exact H |].
    apply IH. now apply step_calls_written.
  - destruct (run_registry_wf CALL DATA EXC error_toString evs exports GRIST_THROTTLE_CPU)
      as (Hnodup & Hpending & Hsettled).
    fold st in Hnodup, Hpending, Hsettled.
    apply NoDup_ListNoDup in Hnodup.
    pose proof (NoDup_incl_length (l := _pendingReads st ++ map fst (settlements st))
                  (l' := seq 0 (promises st)) Hnodup) as Hlen.
    rewrite length_app, length_map, length_seq in Hlen. apply Hlen.
    intros p Hin. apply in_seq. apply in_app_iff in Hin as [Hin | Hin].
    + rewrite Forall_forall in Hpending. apply list_elem_of_In, Hpending in Hin. lia.
    + rewrite Forall_forall in Hsettled. apply list_elem_of_In, Hsettled in Hin. lia.
Qed.

(** Two calls, one of them answered, and a call of the sandbox answered in
    between. *)
Lemma one_CALL_frame_per_promise_witness :
  calls_written MsgCode_CALL
    (_streamToSandbox
       (run MsgCode_CALL MsgCode_DATA MsgCode_EXC describe_error
          [EvPyCall (js "f") [];
           EvData [frame_value (MsgCode_CALL, VArr [VStr (js "g")])]; EvAnswer 0;
           EvPyCall (js "h") [VNum 1]; EvData [frame_value (MsgCode_DATA, VNum 5)]]
          (new_NSandbox None false))) = 2%nat.
Proof.
  apply (one_CALL_frame_per_promise MsgCode_CALL MsgCode_DATA MsgCode_EXC describe_error
           None false
           [EvPyCall (js "f") [];
            EvData [frame_value (MsgCode_CALL, VArr [VStr (js "g")])]; EvAnswer 0;
            EvPyCall (js "h") [VNum 1]; EvData [frame_value (MsgCode_DATA, VNum 5)]]).
  reflexivity.
Defined.

(** ** Promises *)

Lemma times_settled_NoDup p st :
  NoDup (map fst (settlements st)) -> (times_settled p st <= 1)%nat.
Proof.
  unfold times_settled. induction (settlements st) as [| [q s] l IH]; simpl; [lia |].
  intros H. apply NoDup_cons in H as [Hq H].
  destruct (Nat.eqb_spec q p) as [-> | Hne]; [| now apply IH].
  simpl. enough (length (List.filter (fun s => Nat.eqb (fst s) p) l) = 0%nat) by lia.
  apply (not_settled_yet p (set_settlements l st)).
  intros Hin. apply Hq. now apply list_elem_of_In.
Qed.

(** X3. In every state the controller reaches from its construction,
    each promise of a [pyCall] has been settled at most once, a promise
    whose call is still in the registry has not been settled, and no call
    is in the registry twice. *)
Theorem promise_settled_at_most_once (CALL DATA EXC : value)
    (error_toString : error -> jsstring) (exports : option JSObject)
    (GRIST_THROTTLE_CPU : bool) (evs : list event) (p : nat) :
  let st := run CALL DATA EXC error_toString evs (new_NSandbox exports GRIST_THROTTLE_CPU) in
  (times_settled p st <= 1)%nat /\
  (In p (_pendingReads st) -> times_settled p st = 0%nat) /\
  NoDup (_pendingReads st).
Proof.
  intros st.
  destruct (run_registry_wf CALL DATA EXC error_toString evs exports GRIST_THROTTLE_CPU)
    as (Hnodup & _).
  fold st in Hnodup. apply NoDup_app in Hnodup as (Hq & Hdisj & Hs). split_and!.
  - now apply times_settled_NoDup.
  - intros Hin. apply not_settled_yet. intros Hin'.
    apply (Hdisj p); now apply list_elem_of_In.
  - exact Hq.
Qed.

(** ** Answers to the calls of the sandbox *)

(** X4. A call of the sandbox whose name converts to a string that is an
    own function of the table is queued without anything being written.
    When its answer is sent on an open inbound pipe, however many other
    calls still wait for theirs, the function gets the elements of the
    payload after the name as its arguments, and what it does decides what
    is written: a [DATA] frame with the result if it returns, an [EXC]
    frame with the description of what it throws if that has one, and
    nothing if it throws [null], [undefined] or something else of which
    [toString] cannot be called.  The other calls keep waiting and the
    registry of pending calls is left alone. *)
Theorem exported_call_answered (CALL DATA EXC : value) (error_toString : error -> jsstring)
    (msgCode fname : value) (name : jsstring) (args : list value) (func : SandboxMethod)
    (st : NSandbox) :
  strict_eq msgCode CALL = true ->
  _isReadClosed st = false ->
  to_string fname = Some name ->
  own (_exportedFunctions st) !! name = Some func ->
  exists st1 st2,
    _onSandboxMsg CALL DATA EXC msgCode (VArr (fname :: args)) st = Done tt st1 /\
    _streamToSandbox st1 = _streamToSandbox st /\
    jobs st1 = jobs st ++ [(fname, args)] /\
    run_job DATA EXC error_toString (length (jobs st)) st1 = Done tt st2 /\
    _streamToSandbox st2 =
      _streamToSandbox st ++
      match func args with
      | Returns ret => [SWrite DATA ret]
      | Throws description => [SWrite EXC description]
      | ThrowsUnprintable _ => []
      end /\
    _pendingReads st2 = _pendingReads st /\
    settlements st2 = settlements st /\
    jobs st2 = jobs st.
Proof.
  intros Hcall Hopen Hname Hown.
  destruct (call_frame_queued CALL DATA EXC msgCode fname name args st Hcall Hname)
    as [entry ->].
  assert (Hjob : (jobs st ++ [(fname, args)]) !! length (jobs st) = Some (fname, args))
    by now apply list_lookup_middle.
  destruct (func args) as [ret | description | failure] eqn:Hfunc;
    do 2 eexists; (split; [reflexivity |]); (split; [reflexivity |]);
    (split; [reflexivity |]);
    unfold run_job; members; rewrite Hjob, delete_middle, app_nil_r;
    unfold answer_call, try_catch, call_exported, get_property; members;
    rewrite Hname, Hown, Hfunc; unfold _sendData; members; rewrite ?Hopen; members;
    rewrite ?app_nil_r; now split_and!.
Qed.

(** A table with the one function [add], which returns 5; another call is
    waiting for its answer. *)
Lemma exported_call_answered_witness :
  exists st1 st2,
    _onSandboxMsg MsgCode_CALL MsgCode_DATA MsgCode_EXC MsgCode_CALL
      (VArr [VStr (js "add"); VNum 2; VNum 3])
      (state_of
         (_onSandboxMsg MsgCode_CALL MsgCode_DATA MsgCode_EXC MsgCode_CALL
            (VArr [VStr (js "later")])
            (new_NSandbox (Some (object_literal {[js "add" := fun _ => Returns (VNum 5)]}))
               false)))
    = Done tt st1 /\
    run_job MsgCode_DATA MsgCode_EXC describe_error 1 st1 = Done tt st2 /\
    written (_streamToSandbox st2) = [(MsgCode_DATA, VNum 5)] /\
    jobs st2 = [(VStr (js "later"), [])].
Proof.
  destruct (exported_call_answered MsgCode_CALL MsgCode_DATA MsgCode_EXC describe_error
              MsgCode_CALL (VStr (js "add")) (js "add") [VNum 2; VNum 3]
              (fun _ => Returns (VNum 5))
              (state_of
                 (_onSandboxMsg MsgCode_CALL MsgCode_DATA MsgCode_EXC MsgCode_CALL
                    (VArr [VStr (js "later")])
                    (new_NSandbox
                       (Some (object_literal {[js "add" := fun _ => Returns (VNum 5)]}))
                       false))))
    as (st1 & st2 & H1 & _ & _ & H2 & H3 & _ & _ & H4).
  - reflexivity.
  - reflexivity.
  - reflexivity.
  - apply lookup_singleton_eq.
  - exists st1, st2. split; [exact H1 |]. split; [exact H2 |].
    split; [now rewrite H3 | exact H4].
Defined.

(** X5. When the inbound pipe is closed, the answer to a call of the
    sandbox is never written, whatever the name and whatever the exported
    function does: sending it ends normally, with one line in the debug
    log and nothing else changed. *)
Theorem answer_on_closed_pipe_is_dropped (DATA EXC : value)
    (error_toString : error -> jsstring) (fname : value) (args : list value)
    (st : NSandbox) :
  _isReadClosed st = true ->
  exists message,
    answer_call DATA EXC error_toString fname args st =
    Done tt (log (rawDebug (js "Sandbox sending response failed: " ++ message)) st).
Proof.
  intros Hc. unfold answer_call, try_catch.
  destruct (call_exported fname args st) as [ret | description | failure];
    rewrite ?_sendData_closed by assumption; eexists; reflexivity.
Qed.

Lemma answer_on_closed_pipe_is_dropped_witness :
  exists message,
    answer_call MsgCode_DATA MsgCode_EXC describe_error (VStr (js "g")) []
      (on_read_end (new_NSandbox None false)) =
    Done tt (log (rawDebug (js "Sandbox sending response failed: " ++ message))
               (on_read_end (new_NSandbox None false))).
Proof.
  apply (answer_on_closed_pipe_is_dropped MsgCode_DATA MsgCode_EXC describe_error).
  reflexivity.
Defined.

(** ** Chunks of values *)

Lemma js_index_nullish v i : js_index v i = None <-> is_nullish v = true.
Proof. destruct v; simpl; split; congruence. Qed.

(** X6. The callback that handles one decoded value throws exactly when
    the value is [null] or [undefined], whose code cannot be read, or is a
    call of the sandbox with a name that cannot be converted to a string;
    every other value, array or not, is taken for a frame and handled
    without an exception.  When the callback throws it has done nothing
    yet: nothing is logged, queued, settled or written. *)
Theorem data_handler_throws_before_acting (CALL DATA EXC : value) (v : value)
    (st : NSandbox) :
  has_thrown (_onSandboxData CALL DATA EXC [v] st) = throws_on CALL v /\
  (throws_on CALL v = true ->
   state_of (_onSandboxData CALL DATA EXC [v] st) = st).
Proof.
  unfold _onSandboxData, throws_on. cbn [for_each]. unfold bind, ret.
  destruct (is_nullish v) eqn:Hv.
  - apply (js_index_nullish v 0) in Hv as H0. rewrite H0. now split.
  - destruct (js_index v 0) as [msgCode |] eqn:H0;
      [| apply js_index_nullish in H0; congruence].
    destruct (js_index v 1) as [data |] eqn:H1;
      [| apply js_index_nullish in H1; congruence].
    cbn [orb].
    destruct (_onSandboxMsg_throws CALL DATA EXC msgCode data st) as [[-> ->] | [-> H]].
    + now split.
    + destruct (_onSandboxMsg CALL DATA EXC msgCode data st) as [[] st' | e st'];
        [now split | discriminate].
Qed.

(** A call whose name is an object that has no string conversion. *)
Example call_without_a_name_throws :
  _onSandboxData MsgCode_CALL MsgCode_DATA MsgCode_EXC
    [frame_value (MsgCode_CALL, VArr [VObj (fun _ => VUndefined) None; VNum 1])]
    (new_NSandbox None false) =
  Thrown Cannot_convert (new_NSandbox None false).
Proof. reflexivity. Qed.

(** ** Calls of the sandbox between the answers *)

Section Interleaved.

Variables CALL DATA EXC : value.
Hypothesis codes : codes_distinct CALL DATA EXC = true.

(** A call of the sandbox that has a name leaves the registry and the
    settlements alone. *)
Lemma call_frame_registry msgCode data st :
  is_call CALL (msgCode, data) = true ->
  exists st',
    _onSandboxMsg CALL DATA EXC msgCode data st = Done tt st' /\
    _pendingReads st' = _pendingReads st /\ settlements st' = settlements st.
Proof.
  unfold is_call, unnamed_call, _onSandboxMsg. cbn [fst snd].
  destruct (strict_eq msgCode CALL); [| discriminate]. cbn [andb].
  destruct (negb (isArray data) || Nat.eqb (length (elements data)) 0);
    [intros _; eexists; split_and!; reflexivity |].
  cbv zeta. destruct (to_string _); [| discriminate].
  intros _. eexists. split_and!; reflexivity.
Qed.

Lemma interleaved_in_order frames :
  forall ids rest st,
    Forall (fun frame => is_call CALL frame || is_response DATA EXC frame = true) frames ->
    length ids = length (responses_of CALL frames) ->
    _pendingReads st = ids ++ rest ->
    exists st',
      _onSandboxData CALL DATA EXC (map frame_value frames) st = Done tt st' /\
      _pendingReads st' = rest /\
      settlements st' =
        settlements st ++
        zip_with (fun p frame => (p, response DATA frame)) ids (responses_of CALL frames).
Proof.
  induction frames as [| [msgCode data] frames IH]; intros ids rest st Hok Hlen Hq.
  - destruct ids; [| discriminate]. exists st. simpl. rewrite app_nil_r. auto.
  - apply Forall_cons in Hok as [Hframe Hok]. simpl in Hframe.
    unfold _onSandboxData. simpl. unfold bind. unfold responses_of in *. simpl in *.
    destruct (strict_eq msgCode CALL) eqn:HC; simpl in *.
    + assert (Hcall : is_call CALL (msgCode, data) = true).
      { destruct (is_call CALL (msgCode, data)) eqn:E; [reflexivity |]. simpl in Hframe.
        unfold is_response in Hframe. simpl in Hframe.
        apply orb_true_iff in Hframe as [H | H].
        - destruct (DATA_frame _ _ _ codes msgCode H) as [HC' _]. congruence.
        - destruct (EXC_frame _ _ _ codes msgCode H) as [HC' _]. congruence. }
      destruct (call_frame_registry msgCode data st Hcall) as (st1 & -> & Hq1 & Hs1).
      destruct (IH ids rest st1 Hok Hlen) as (st' & Hrun & Hq' & Hs'); [congruence |].
      exists st'. split; [exact Hrun |]. split; [exact Hq' |]. now rewrite Hs', Hs1.
    + destruct ids as [| p ids]; [discriminate |].
      assert (Hstep : _onSandboxMsg CALL DATA EXC msgCode data st =
                      Done tt (settle p (response DATA (msgCode, data))
                                 (set_pendingReads (ids ++ rest) st))).
      { rewrite (response_frame CALL DATA EXC msgCode data st HC), Hq. simpl.
        unfold response, is_response in *. simpl in *.
        destruct (strict_eq msgCode DATA) eqn:HD.
        - destruct (DATA_frame _ _ _ codes msgCode HD) as [_ ->]. reflexivity.
        - unfold is_call in Hframe. simpl in Hframe. rewrite HC in Hframe.
          simpl in Hframe. now rewrite Hframe. }
      rewrite Hstep.
      destruct (IH ids rest (settle p (response DATA (msgCode, data))
                               (set_pendingReads (ids ++ rest) st)))
        as (st' & Hrun & Hq' & Hs'); [assumption | simpl in Hlen; lia | reflexivity |].
      exists st'. split; [exact Hrun |]. split; [exact Hq' |].
      rewrite Hs'. members. simpl. now rewrite <- app_assoc.
Qed.

End Interleaved.

(** X7. Calls of the sandbox that arrive between the answers do not
    disturb the correlation: when the frames of a chunk are answers and
    calls of the sandbox in any order, no call having a name that cannot
    be converted to a string, and the answers are as many as the calls
    pending, the [k]th answer settles the [k]th pending call, the registry
    is empty afterwards, and the handler does not throw. *)
Theorem calls_between_answers (CALL DATA EXC : value) (frames : list (value * value))
    (st : NSandbox) :
  codes_distinct CALL DATA EXC = true ->
  Forall (fun frame => is_call CALL frame || is_response DATA EXC frame = true) frames ->
  length (responses_of CALL frames) = length (_pendingReads st) ->
  exists st',
    _onSandboxData CALL DATA EXC (map frame_value frames) st = Done tt st' /\
    _pendingReads st' = [] /\
    settlements st' =
      settlements st ++
      zip_with (fun p frame => (p, response DATA frame))
               (_pendingReads st) (responses_of CALL frames).
Proof.
  intros codes Hok Hlen.
  apply (interleaved_in_order CALL DATA EXC codes frames (_pendingReads st) [] st);
    [assumption | now symmetry | now rewrite app_nil_r].
Qed.

(** Two calls are pending; the sandbox calls [g] between its two answers. *)
Lemma calls_between_answers_witness :
  exists st',
    _onSandboxData MsgCode_CALL MsgCode_DATA MsgCode_EXC
      (map frame_value
         [(MsgCode_DATA, VNum 5); (MsgCode_CALL, VArr [VStr (js "g")]);
          (MsgCode_EXC, VStr (js "boom"))])
      (run MsgCode_CALL MsgCode_DATA MsgCode_EXC describe_error
         [EvPyCall (js "add") [VNum 2; VNum 3]; EvPyCall (js "boom") []]
         (new_NSandbox None false)) = Done tt st' /\
    _pendingReads st' = [] /\
    settlements st' =
      [(0%nat, Resolved (VNum 5)); (1%nat, Rejected (SandboxError (VStr (js "boom"))))].
Proof.
  apply (calls_between_answers MsgCode_CALL MsgCode_DATA MsgCode_EXC
           [(MsgCode_DATA, VNum 5); (MsgCode_CALL, VArr [VStr (js "g")]);
            (MsgCode_EXC, VStr (js "boom"))]
           (run MsgCode_CALL MsgCode_DATA MsgCode_EXC describe_error
              [EvPyCall (js "add") [VNum 2; VNum 3]; EvPyCall (js "boom") []]
              (new_NSandbox None false))).
  - reflexivity.
  - repeat constructor.
  - reflexivity.
Defined.

(** ** Shutdown and the calls *)

Lemma pyCall_open_members (CALL : value) (funcName : jsstring) (varArgs : list value)
    (st : NSandbox) :
  _isReadClosed st = false ->
  exists st',
    pyCall CALL funcName varArgs st = Done (promises st) st' /\
    _streamToSandbox st' =
      _streamToSandbox st ++ [SWrite CALL (VArr (VStr funcName :: varArgs))] /\
    _pendingReads st' = _pendingReads st ++ [promises st] /\
    settlements st' = settlements st.
Proof.
  intros Hopen. rewrite pyCall_open by assumption. eexists. now split_and!.
Qed.

Lemma ended_stream_has_end ops : ends ops = 1%nat -> In SEnd ops.
Proof.
  unfold ends. intros H.
  destruct (List.filter is_end ops) as [| op l] eqn:Hf; [discriminate |].
  assert (Hin : In op (List.filter is_end ops)) by (rewrite Hf; now left).
  apply filter_In in Hin as [Hin Hend]. now destruct op.
Qed.

(** X8. [shutdown()] does not close the way for calls: in every state the
    controller reaches, as long as the inbound pipe is open a [pyCall]
    made after [shutdown()] does not throw; it writes its frame to the
    outbound stream although that stream has been ended, and its promise
    joins the registry, where only the closing of the inbound pipe will
    settle it. *)
Theorem pyCall_after_shutdown_is_accepted (CALL DATA EXC : value)
    (error_toString : error -> jsstring) (exports : option JSObject)
    (GRIST_THROTTLE_CPU : bool) (evs : list event)
    (funcName : jsstring) (varArgs : list value) :
  let st := run CALL DATA EXC error_toString evs (new_NSandbox exports GRIST_THROTTLE_CPU) in
  _isReadClosed st = false ->
  exists st',
    pyCall CALL funcName varArgs (shutdown st) = Done (promises st) st' /\
    In SEnd (_streamToSandbox (shutdown st)) /\
    _streamToSandbox st' =
      _streamToSandbox (shutdown st) ++ [SWrite CALL (VArr (VStr funcName :: varArgs))] /\
    _pendingReads st' = _pendingReads st ++ [promises st] /\
    settlements st' = settlements st.
Proof.
  intros st Hopen.
  assert (Hinv : lifecycle_inv (shutdown st)) by apply shutdown_inv, run_inv, new_NSandbox_inv.
  clearbody st.
  destruct (pump_members _ _ (shutdown_pump st)) as (_ & Hq & Hc & Hp & Hs & _).
  destruct (pyCall_open_members CALL funcName varArgs (shutdown st))
    as (st' & Hrun & Hstream & Hpending & Hsettled); [congruence |].
  rewrite Hp in Hrun. rewrite Hq, Hp in Hpending. rewrite Hs in Hsettled.
  exists st'. split_and!; try assumption.
  apply ended_stream_has_end. destruct Hinv as (Hends & _).
  rewrite Hends, shutdown_unfold. now rewrite (proj1 (proj2 (_close_members _))).
Qed.

Lemma pyCall_after_shutdown_is_accepted_witness :
  exists st',
    pyCall MsgCode_CALL (js "add") [VNum 2] (shutdown (new_NSandbox None false)) =
    Done 0%nat st' /\
    _streamToSandbox st' = [SEnd; SWrite MsgCode_CALL (VArr [VStr (js "add"); VNum 2])] /\
    _pendingReads st' = [0%nat].
Proof.
  destruct (pyCall_after_shutdown_is_accepted MsgCode_CALL MsgCode_DATA MsgCode_EXC
              describe_error None false [] (js "add") [VNum 2] eq_refl)
    as (st' & H1 & _ & H2 & H3 & _).
  exists st'. split; [exact H1 |]. split; [exact H2 | exact H3].
Defined.

(** ** A shutdown that is rejected *)

Lemma settle_rejected_timers i e st :
  timers (settle_shutdown i (Rejected e) st) = timers st.
Proof.
  unfold settle_shutdown.
  destruct (shutdowns st !! i) as [call |]; [| reflexivity].
  now destruct (awaited call).
Qed.

Lemma notify_rejected_timers e st :
  timers (notify_shutdowns (Rejected e) st) = timers st.
Proof.
  unfold notify_shutdowns. generalize (seq 0 (length (shutdowns st))).
  intros l. revert st. induction l as [| i l IH]; intros st; simpl; [reflexivity |].
  now rewrite IH, settle_rejected_timers.
Qed.

Lemma settle_shutdown_results_grow i s st x :
  In x (shutdownResults st) -> In x (shutdownResults (settle_shutdown i s st)).
Proof.
  intros Hx. unfold settle_shutdown.
  destruct (shutdowns st !! i) as [call |]; [| assumption].
  destruct (awaited call); [assumption |].
  destruct s; members; apply in_or_app; now left.
Qed.

Lemma settle_fold_results_grow s l st x :
  In x (shutdownResults st) ->
  In x (shutdownResults (fold_left (fun st i => settle_shutdown i s st) l st)).
Proof.
  revert st. induction l as [| i l IH]; intros st Hx; simpl; [assumption |].
  now apply IH, settle_shutdown_results_grow.
Qed.

(** A listener called while the call is pending settles it. *)
Lemma settle_fold_records s l st i call :
  In i l -> shutdowns st !! i = Some call -> awaited call = None ->
  In (i, s) (shutdownResults (fold_left (fun st i => settle_shutdown i s st) l st)).
Proof.
  revert st. induction l as [| j l IH]; intros st Hin Hcall Hawait; [destruct Hin |].
  simpl. destruct (decide (j = i)) as [-> | Hne].
  - apply settle_fold_results_grow.
    destruct (settle_shutdown_first i s st call Hcall Hawait) as (_ & -> & _).
    apply in_or_app. right. now left.
  - destruct Hin as [-> | Hin]; [now destruct Hne |].
    apply IH; [assumption | | assumption].
    now rewrite settle_shutdown_other.
Qed.

(** The listeners do nothing once every call is settled. *)
Lemma settle_fold_idle s l st :
  (forall i, In i l -> (i < length (shutdowns st))%nat) ->
  (forall i, (i < length (shutdowns st))%nat -> call_settled (shutdowns st) i) ->
  fold_left (fun st i => settle_shutdown i s st) l st = st.
Proof.
  intros Hl Hall. induction l as [| i l IH]; simpl; [reflexivity |].
  rewrite settle_shutdown_idle.
  - apply IH. intros j Hj. apply Hl. now right.
  - intros call Hcall. destruct (Hall i (Hl i (or_introl eq_refl))) as (call' & Hcall' & Hset).
    congruence.
Qed.

Lemma notify_settled_idle s st :
  (forall i, (i < length (shutdowns st))%nat -> call_settled (shutdowns st) i) ->
  notify_shutdowns s st = st.
Proof.
  intros Hall. unfold notify_shutdowns. apply settle_fold_idle; [| assumption].
  intros i Hi. apply in_seq in Hi. lia.
Qed.

Lemma _onError_lifecycle_members err st :
  timers (_onError err st) = timers st /\ kills (_onError err st) = kills st /\
  shutdowns (_onError err st) = shutdowns st /\
  shutdownResults (_onError err st) = shutdownResults st.
Proof.
  destruct (_close_lifecycle_members st) as (Ht & _ & Hk & Hs & Hr).
  unfold _onError. members. auto.
Qed.

Lemma _onExit_lifecycle_members code signal st :
  timers (state_of (_onExit code signal st)) = timers st /\
  kills (state_of (_onExit code signal st)) = kills st /\
  shutdowns (state_of (_onExit code signal st)) = shutdowns st.
Proof.
  destruct (_close_lifecycle_members st) as (Ht & _ & Hk & Hs & _).
  unfold _onExit. cbv zeta. destruct (to_string code), (to_string signal); members; auto.
Qed.

(** The ['close'] event when no call of [shutdown()] waits. *)
Lemma on_child_close_idle code signal st :
  (forall i, (i < length (shutdowns st))%nat -> call_settled (shutdowns st) i) ->
  on_child_close code signal st = state_of (_onExit code signal st).
Proof.
  intros Hall. destruct (_onExit_lifecycle_members code signal st) as (_ & _ & Hs).
  unfold on_child_close. destruct (_onExit code signal st) as [[] st' | e st'];
    [| reflexivity].
  simpl in Hs. apply notify_settled_idle. intros i Hi. cbn [state_of] in *. rewrite Hs in *. now apply Hall.
Qed.

Lemma notify_kills s st : kills (notify_shutdowns s st) = kills st.
Proof.
  destruct (notify_shutdowns_frame s st) as (_ & Hout & _).
  now apply outbound_members in Hout as (_ & _ & _ & ->).
Qed.

(** The process exits after every call of [shutdown()] has been settled:
    the listeners find nothing to do. *)
Lemma child_exits_settled code signal st :
  (forall i, (i < length (shutdowns st))%nat -> call_settled (shutdowns st) i) ->
  timers (child_exits code signal st) = timers st /\
  kills (child_exits code signal st) = kills st.
Proof.
  intros Hall. unfold child_exits, on_child_exit.
  rewrite (notify_settled_idle (Resolved code) st Hall).
  rewrite on_child_close_idle by assumption.
  destruct (_onExit_lifecycle_members code signal st) as (Ht & Hk & Hs).
  auto.
Qed.

(** X9. A call of [shutdown()] that is rejected leaves its kill timer
    armed.  In every state the controller reaches with the outbound stream
    open, when [childProc] emits ['error'] while a call of [shutdown()] is
    waiting, the call throws the error before it reaches [clearTimeout]:
    its timer is still pending, remains so when the process exits
    afterwards, and sends SIGKILL when it goes off. *)
Theorem rejected_shutdown_keeps_its_timer (CALL DATA EXC : value)
    (error_toString : error -> jsstring) (exports : option JSObject)
    (GRIST_THROTTLE_CPU : bool) (evs : list event)
    (err : jsstring) (code signal : value) :
  let st := run CALL DATA EXC error_toString evs (new_NSandbox exports GRIST_THROTTLE_CPU) in
  _isWriteClosed st = false ->
  let failed := on_child_error err (shutdown st) in
  let exited := child_exits code signal failed in
  In (length (shutdowns st), Rejected (JSError err)) (shutdownResults failed) /\
  timers failed = [(nextTimer st, KILL_DELAY)] /\
  timer_pending (nextTimer st) exited = true /\
  kills exited = [] /\
  kills (onTimeout (nextTimer st) exited) = [SIGKILL].
Proof.
  intros st Hw failed exited.
  assert (Hinv : lifecycle_inv st) by apply run_inv, new_NSandbox_inv.
  clearbody st.
  destruct (shutdown_open st Hinv Hw) as (_ & Ht & Hk & Hs).
  destruct (_onError_lifecycle_members err (shutdown st)) as (Ht' & Hk' & Hs' & _).
  assert (Htimers : timers failed = [(nextTimer st, KILL_DELAY)]).
  { unfold failed, on_child_error. now rewrite notify_rejected_timers, Ht'. }
  assert (Hkills : kills failed = []).
  { unfold failed, on_child_error. now rewrite notify_kills, Hk'. }
  assert (Hall : forall i, (i < length (shutdowns failed))%nat ->
                           call_settled (shutdowns failed) i).
  { unfold failed, on_child_error.
    destruct (notify_shutdowns_settles (Rejected (JSError err)) (_onError err (shutdown st)))
      as [Hlen Hset].
    intros i Hi. apply Hset. now rewrite <- Hlen. }
  destruct (child_exits_settled code signal failed Hall) as [Hte Hke].
  fold exited in Hte, Hke. rewrite Htimers in Hte. rewrite Hkills in Hke.
  split_and!.
  - unfold failed, on_child_error, notify_shutdowns.
    apply (settle_fold_records _ _ _ _ (mkShutdownCall (nextTimer st) None)).
    + apply in_seq. rewrite Hs', Hs, length_app. simpl. lia.
    + rewrite Hs', Hs. apply list_lookup_middle. reflexivity.
    + reflexivity.
  - exact Htimers.
  - unfold timer_pending. rewrite Hte. apply bool_decide_eq_true_2. simpl.
    apply list_elem_of_here.
  - exact Hke.
  - destruct (onTimeout_fires _ _ _ Hte) as (_ & -> & _). now rewrite Hke.
Qed.

Lemma rejected_shutdown_keeps_its_timer_witness :
  In (0%nat, Rejected (JSError (js "Error: spawn ENOENT")))
     (shutdownResults
        (on_child_error (js "Error: spawn ENOENT") (shutdown (new_NSandbox None false)))) /\
  timers (on_child_error (js "Error: spawn ENOENT") (shutdown (new_NSandbox None false))) =
    [(0%nat, KILL_DELAY)] /\
  timer_pending 0
    (child_exits (VNum 1) VNull
       (on_child_error (js "Error: spawn ENOENT") (shutdown (new_NSandbox None false)))) =
    true /\
  kills
    (child_exits (VNum 1) VNull
       (on_child_error (js "Error: spawn ENOENT") (shutdown (new_NSandbox None false)))) =
    [] /\
  kills
    (onTimeout 0
       (child_exits (VNum 1) VNull
          (on_child_error (js "Error: spawn ENOENT") (shutdown (new_NSandbox None false))))) =
    [SIGKILL].
Proof.
  exact (rejected_shutdown_keeps_its_timer MsgCode_CALL MsgCode_DATA MsgCode_EXC
           describe_error None false [] (js "Error: spawn ENOENT") (VNum 1) VNull eq_refl).
Defined.

(** ** Without a call of [shutdown()] *)

Section Unshut.

Variables CALL DATA EXC : value.
Variable error_toString : error -> jsstring.

Lemma _close_cleanupHandler st : cleanupHandler (_close st) = cleanupHandler st.
Proof. unfold _close. members. now destruct (_isWriteClosed st). Qed.

Lemma _onSandboxMsg_cleanupHandler msgCode data st :
  cleanupHandler (state_of (_onSandboxMsg CALL DATA EXC msgCode data st)) = cleanupHandler st.
Proof.
  unfold _onSandboxMsg. destruct (strict_eq msgCode CALL).
  - destruct (negb (isArray data) || Nat.eqb (length (elements data)) 0); [easy |].
    cbv zeta. now destruct (to_string _).
  - destruct (_pendingReads st); [reflexivity |]. cbv zeta.
    now repeat destruct (strict_eq _ _).
Qed.

Lemma answer_call_cleanupHandler fname args st :
  cleanupHandler (state_of (answer_call DATA EXC error_toString fname args st)) =
  cleanupHandler st.
Proof.
  unfold answer_call, try_catch, _sendData.
  destruct (call_exported fname args st) as [v | d | d]; try reflexivity;
    now destruct (_isReadClosed st).
Qed.

Lemma notify_cleanupHandler s st :
  cleanupHandler (notify_shutdowns s st) = cleanupHandler st.
Proof.
  unfold notify_shutdowns. generalize (seq 0 (length (shutdowns st))). intros l.
  revert st. induction l as [| i l IH]; intros st; simpl; [reflexivity |].
  rewrite IH. unfold settle_shutdown.
  destruct (shutdowns st !! i) as [call |]; [| reflexivity].
  destruct (awaited call); [reflexivity |]. now destruct s.
Qed.

(** The handlers other than [shutdown()] leave the cleanup handler
    registered. *)
Lemma step_cleanupHandler ev st :
  is_shutdown ev = false ->
  cleanupHandler (step CALL DATA EXC error_toString st ev) = cleanupHandler st.
Proof.
  intros Hev. destruct ev as [f a | | values | | e | e | | id | code sig | code sig | err];
    try (simpl in Hev; discriminate); cbn [step].
  - unfold pyCall, bind, _sendData, _pyCallWait. now destruct (_isReadClosed st).
  - unfold _onSandboxData.
    apply (for_each_keeps (fun st' => cleanupHandler st' = cleanupHandler st));
      [| reflexivity].
    intros value st' H.
    destruct (js_index value 0), (js_index value 1); try assumption.
    now rewrite _onSandboxMsg_cleanupHandler.
  - unfold on_read_end. now rewrite _onSandboxClose_spec.
  - unfold on_read_error. now rewrite _onSandboxClose_spec.
  - unfold on_write_error. now destruct (_isWriteClosed st).
  - unfold run_job. destruct (jobs st !! i) as [[fname args] |]; [| reflexivity].
    now rewrite answer_call_cleanupHandler.
  - unfold onTimeout. now destruct (timer_pending id st).
  - destruct (on_child_close_cases code sig st) as [[entry ->] | ->].
    + rewrite notify_cleanupHandler. members. apply _close_cleanupHandler.
    + apply _close_cleanupHandler.
  - apply notify_cleanupHandler.
  - unfold on_child_error, _onError. rewrite notify_cleanupHandler. members.
    apply _close_cleanupHandler.
Qed.

(** As long as [shutdown()] was never called there is no listener to
    notify and no timer to go off. *)
Lemma step_unshut ev st :
  is_shutdown ev = false ->
  timers st = [] /\ kills st = [] /\ shutdowns st = [] ->
  let st' := step CALL DATA EXC error_toString st ev in
  timers st' = [] /\ kills st' = [] /\ shutdowns st' = [].
Proof.
  intros Hev (Ht & Hk & Hs).
  assert (Hsame : forall st', lifecycle st' = lifecycle st ->
                              timers st' = [] /\ kills st' = [] /\ shutdowns st' = []).
  { unfold lifecycle. intros st' H. inversion H. split_and!; congruence. }
  assert (Hidle : forall s st', shutdowns st' = [] -> notify_shutdowns s st' = st').
  { intros s st' H. apply notify_settled_idle. rewrite H. simpl. intros i Hi. lia. }
  destruct ev as [f a | | values | | e | e | | id | code sig | code sig | err];
    try (simpl in Hev; discriminate); cbn [step].
  - apply Hsame, pyCall_lifecycle.
  - apply Hsame, _onSandboxData_lifecycle.
  - apply Hsame, _onSandboxClose_lifecycle.
  - apply Hsame. unfold on_read_error. now rewrite _onSandboxClose_lifecycle.
  - apply Hsame. unfold on_write_error. now destruct (_isWriteClosed st).
  - apply Hsame, run_job_lifecycle.
  - unfold onTimeout. now rewrite no_timer_not_pending.
  - destruct (_onExit_lifecycle_members code sig st) as (Ht' & Hk' & Hs').
    rewrite on_child_close_idle by (rewrite Hs; simpl; intros i Hi; lia).
    split_and!; congruence.
  - unfold on_child_exit. now rewrite Hidle.
  - destruct (_onError_lifecycle_members err st) as (Ht' & Hk' & Hs' & _).
    unfold on_child_error. rewrite Hidle by congruence. split_and!; congruence.
Qed.

End Unshut.

(** X10. Nothing but [shutdown()] arms the kill timer.  In every state the
    controller reaches by events among which there is no call of
    [shutdown()], whatever the process and the pipes do, and whichever
    timer identifiers go off, no timer is pending, SIGKILL was never sent,
    no listener of [shutdown()] is registered on [childProc], and the
    cleanup handler that the constructor added is still registered. *)
Theorem no_kill_without_shutdown (CALL DATA EXC : value)
    (error_toString : error -> jsstring) (exports : option JSObject)
    (GRIST_THROTTLE_CPU : bool) (evs : list event) :
  existsb is_shutdown evs = false ->
  let st := run CALL DATA EXC error_toString evs (new_NSandbox exports GRIST_THROTTLE_CPU) in
  timers st = [] /\ kills st = [] /\ shutdowns st = [] /\ cleanupHandler st = true.
Proof.
  intros Hevs. cbv zeta.
  assert (Hstart : (timers (new_NSandbox exports GRIST_THROTTLE_CPU) = [] /\
                    kills (new_NSandbox exports GRIST_THROTTLE_CPU) = [] /\
                    shutdowns (new_NSandbox exports GRIST_THROTTLE_CPU) = []) /\
                   cleanupHandler (new_NSandbox exports GRIST_THROTTLE_CPU) = true)
    by now split_and!.
  revert Hstart. generalize (new_NSandbox exports GRIST_THROTTLE_CPU).
  unfold run. induction evs as [| ev evs IH]; intros st [Hidle Hc]; simpl.
  - destruct Hidle as (? & ? & ?). now split_and!.
  - simpl in Hevs. apply orb_false_iff in Hevs as [Hev Hevs].
    apply IH; [assumption |]. split.
    + now apply step_unshut.
    + now rewrite step_cleanupHandler.
Qed.

Lemma no_kill_without_shutdown_witness :
  kills (run MsgCode_CALL MsgCode_DATA MsgCode_EXC describe_error
           [EvPyCall (js "apply") []; EvTimeout 0; EvChildError (js "Error: kill EPERM");
            EvReadEnd; EvChildExit (VNum 0) VNull; EvChildClose (VNum 0) VNull; EvTimeout 1]
           (new_NSandbox None true)) = [] /\
  cleanupHandler
    (run MsgCode_CALL MsgCode_DATA MsgCode_EXC describe_error
       [EvPyCall (js "apply") []; EvTimeout 0; EvChildError (js "Error: kill EPERM");
        EvReadEnd; EvChildExit (VNum 0) VNull; EvChildClose (VNum 0) VNull; EvTimeout 1]
       (new_NSandbox None true)) = true.
Proof.
  destruct (no_kill_without_shutdown MsgCode_CALL MsgCode_DATA MsgCode_EXC describe_error
              None true
              [EvPyCall (js "apply") []; EvTimeout 0; EvChildError (js "Error: kill EPERM");
               EvReadEnd; EvChildExit (VNum 0) VNull; EvChildClose (VNum 0) VNull;
               EvTimeout 1]
              eq_refl) as (_ & Hk & _ & Hc).
  split; [exact Hk | exact Hc].
Defined.

(** ** The command line of the spawned process *)

Module CommandLine.
Import NSandboxCreator.

Lemma passes_app_l flag arg before argv :
  passes flag arg argv -> passes flag arg (before ++ argv).
Proof.
  intros (l1 & l2 & ->). exists (before ++ l1), l2. now rewrite <- app_assoc.
Qed.

Lemma passes_app_r flag arg argv after :
  passes flag arg argv -> passes flag arg (argv ++ after).
Proof.
  intros (l1 & l2 & ->). exists l1, (l2 ++ after). now rewrite <- app_assoc.
Qed.

Lemma passes_here flag arg after : passes flag arg (flag :: arg :: after).
Proof. now exists [], after. Qed.

(** The loop over the pairs of [env]. *)
Lemma env_passed (env : list (jsstring * jsstring)) key value :
  In (key, value) env ->
  passes (js "-E") (key ++ js "=" ++ value)
         (flat_map (fun kv => [js "-E"; fst kv ++ js "=" ++ snd kv]) env).
Proof.
  induction env as [| kv env IH]; intros Hin; [destruct Hin |].
  cbn [flat_map app]. destruct Hin as [-> | Hin].
  - apply passes_here.
  - destruct (IH Hin) as (before & after & ->).
    now exists (js "-E" :: (fst kv ++ js "=" ++ snd kv) :: before), after.
Qed.

(** The command line of [sel_ldr], as [spawn] puts it together. *)
Lemma spawn_sel_ldr path_join cwd Windows_NT options :
  command options = None ->
  spawn path_join cwd Windows_NT options =
  {| spawn_command := js "sandbox/nacl/bin/sel_ldr";
     spawn_args :=
       [js "-B"; js "./sandbox/nacl/lib/irt_core.nexe";
        js "-m"; js "./sandbox/nacl/root:/:ro"] ++
       (if unsilenceLog options is Some true then []
        else if Windows_NT then [js "-l"; js "NUL"] else [js "-l"; js "/dev/null"]) ++
       (([js "-r"; js "3:3"; js "-w"; js "4:4"] ++ selLdrArgs options) ++
        flat_map (fun kv => [js "-E"; fst kv ++ js "=" ++ snd kv]) (env options)) ++
       [js "./sandbox/nacl/lib/runnable-ld.so";
        js "--library-path"; js "/slib"; js "/python/bin/python2.7.nexe"] ++
       args options;
     spawn_cwd := None;
     spawn_env := env options |}.
Proof. intros H. unfold spawn. now rewrite H. Qed.

Lemma unlisted_replace (s : jsstring) :
  length (unlisted (replace listed [] s)) = pred (length (unlisted s)).
Proof.
  unfold unlisted. generalize listed. intros f.
  induction s as [| c s IH]; [reflexivity |].
  simpl. destruct (f c) eqn:Hc; simpl; rewrite ?Hc; simpl; [exact IH | reflexivity].
Qed.

Lemma unlisted_nil (s : jsstring) :
  unlisted s = [] <-> Forall (fun c => listed c = true) s.
Proof.
  unfold unlisted. generalize listed. intros f.
  induction s as [| c s IH]; simpl.
  - split; [constructor | reflexivity].
  - destruct (f c) eqn:Hc; simpl.
    + rewrite IH. split; [now constructor | now inversion 1].
    + split; [discriminate |]. inversion 1. congruence.
Qed.

Lemma replace_length (s : jsstring) :
  (length (replace listed [] s) + Nat.min 1 (length (unlisted s)) = length s)%nat.
Proof.
  unfold unlisted. generalize listed. intros f.
  induction s as [| c s IH]; [reflexivity |].
  cbn [replace List.filter]. destruct (f c) eqn:Hc; cbn [negb app length]; lia.
Qed.

End CommandLine.

(** X11. The unsandboxed flavour runs [python2.7] in the [sandbox]
    directory with the python arguments alone, and nothing of the mounts
    reaches the process: two sets of creation options that agree on the
    entry point, the comment and the document URL spawn the same
    process. *)
Theorem unsandboxed_ignores_the_mounts
    (path_join : list jsstring -> jsstring) (cwd : jsstring)
    (LIBFAKETIME_PATH : option jsstring) (Windows_NT : bool)
    (options options' : NSandboxCreator.ISandboxCreationOptions) :
  NSandboxCreator.entryPoint options' = NSandboxCreator.entryPoint options ->
  NSandboxCreator.comment options' = NSandboxCreator.comment options ->
  NSandboxCreator.docUrl options' = NSandboxCreator.docUrl options ->
  let created := NSandboxCreator.create path_join cwd LIBFAKETIME_PATH
                   NSandboxCreator.unsandboxed options in
  let call := NSandboxCreator.spawn path_join cwd Windows_NT created in
  NSandboxCreator.spawn_command call = js "python2.7" /\
  NSandboxCreator.spawn_cwd call = Some (path_join [cwd; js "sandbox"]) /\
  NSandboxCreator.spawn_args call = NSandboxCreator.args created /\
  NSandboxCreator.spawn path_join cwd Windows_NT
    (NSandboxCreator.create path_join cwd LIBFAKETIME_PATH
       NSandboxCreator.unsandboxed options') = call.
Proof.
  intros He Hc Hd. cbv zeta. split_and!; try reflexivity.
  unfold NSandboxCreator.create, NSandboxCreator.spawn.
  cbn [NSandboxCreator.command NSandboxCreator.args NSandboxCreator.env].
  now rewrite He, Hc, Hd.
Qed.

Lemma unsandboxed_ignores_the_mounts_witness :
  NSandboxCreator.spawn (fun _ => js "/grist/sandbox") (js "/grist") false
    (NSandboxCreator.create (fun _ => js "/grist/sandbox") (js "/grist") None
       NSandboxCreator.unsandboxed
       {| NSandboxCreator.entryPoint := None;
          NSandboxCreator.comment := Some (js "doc1");
          NSandboxCreator.sandboxMount := Some (js "/plugins");
          NSandboxCreator.importMount := Some (js "/imports");
          NSandboxCreator.docUrl := None;
          NSandboxCreator.logCalls := Some true;
          NSandboxCreator.logTimes := None |}) =
  NSandboxCreator.spawn (fun _ => js "/grist/sandbox") (js "/grist") false
    (NSandboxCreator.create (fun _ => js "/grist/sandbox") (js "/grist") None
       NSandboxCreator.unsandboxed
       {| NSandboxCreator.entryPoint := None;
          NSandboxCreator.comment := Some (js "doc1");
          NSandboxCreator.sandboxMount := None;
          NSandboxCreator.importMount := None;
          NSandboxCreator.docUrl := None;
          NSandboxCreator.logCalls := None;
          NSandboxCreator.logTimes := None |}).
Proof.
  apply (unsandboxed_ignores_the_mounts (fun _ => js "/grist/sandbox") (js "/grist") None false
           {| NSandboxCreator.entryPoint := None;
              NSandboxCreator.comment := Some (js "doc1");
              NSandboxCreator.sandboxMount := None;
              NSandboxCreator.importMount := None;
              NSandboxCreator.docUrl := None;
              NSandboxCreator.logCalls := None;
              NSandboxCreator.logTimes := None |}
           {| NSandboxCreator.entryPoint := None;
              NSandboxCreator.comment := Some (js "doc1");
              NSandboxCreator.sandboxMount := Some (js "/plugins");
              NSandboxCreator.importMount := Some (js "/imports");
              NSandboxCreator.docUrl := None;
              NSandboxCreator.logCalls := Some true;
              NSandboxCreator.logTimes := None |});
    reflexivity.
Defined.

(** X12. The pynbox flavour runs [sel_ldr] without a working directory of
    its own.  On its command line every variable of the environment is
    passed as [-E key=value], the log of [sel_ldr] is sent to the null
    device, a sandbox mount and an import mount that are given are passed
    as read-only [-m] mounts, and the python arguments come last. *)
Theorem pynbox_command_line
    (path_join : list jsstring -> jsstring) (cwd : jsstring)
    (LIBFAKETIME_PATH : option jsstring) (Windows_NT : bool)
    (options : NSandboxCreator.ISandboxCreationOptions) :
  let created := NSandboxCreator.create path_join cwd LIBFAKETIME_PATH
                   NSandboxCreator.pynbox options in
  let call := NSandboxCreator.spawn path_join cwd Windows_NT created in
  NSandboxCreator.spawn_command call = js "sandbox/nacl/bin/sel_ldr" /\
  NSandboxCreator.spawn_cwd call = None /\
  (forall key value,
     In (key, value) (NSandboxCreator.spawn_env call) ->
     passes (js "-E") (key ++ js "=" ++ value) (NSandboxCreator.spawn_args call)) /\
  passes (js "-l") (if Windows_NT then js "NUL" else js "/dev/null")
         (NSandboxCreator.spawn_args call) /\
  (forall mount,
     NSandboxCreator.sandboxMount options = Some mount -> mount <> [] ->
     passes (js "-m") (mount ++ js ":/sandbox:ro") (NSandboxCreator.spawn_args call)) /\
  (forall mount,
     NSandboxCreator.importMount options = Some mount -> mount <> [] ->
     passes (js "-m") (mount ++ js ":/importdir:ro") (NSandboxCreator.spawn_args call)) /\
  exists front,
    NSandboxCreator.spawn_args call = front ++ NSandboxCreator.args created.
Proof.
  intros created call.
  assert (Hcall : call = _) by (apply CommandLine.spawn_sel_ldr; reflexivity).
  assert (Hlog : NSandboxCreator.unsilenceLog created = None) by reflexivity.
  assert (Hmounts : NSandboxCreator.selLdrArgs created =
            (if NSandboxCreator.truthy (NSandboxCreator.sandboxMount options)
             then [js "-m"; NSandboxCreator.or_else (NSandboxCreator.sandboxMount options) []
                              ++ js ":/sandbox:ro"]
             else []) ++
            (if NSandboxCreator.truthy (NSandboxCreator.importMount options)
             then [js "-m"; NSandboxCreator.or_else (NSandboxCreator.importMount options) []
                              ++ js ":/importdir:ro"]
             else [])).
  { unfold created, NSandboxCreator.create. cbn [NSandboxCreator.selLdrArgs].
    destruct (NSandboxCreator.truthy (NSandboxCreator.sandboxMount options)),
             (NSandboxCreator.truthy (NSandboxCreator.importMount options)); reflexivity. }
  clearbody created call. subst call.
  cbn [NSandboxCreator.spawn_command NSandboxCreator.spawn_cwd NSandboxCreator.spawn_env
       NSandboxCreator.spawn_args].
  rewrite Hlog, Hmounts. split_and!; try reflexivity.
  - intros key value Hin.
    apply CommandLine.passes_app_l, CommandLine.passes_app_l, CommandLine.passes_app_r,
          CommandLine.passes_app_l.
    now apply CommandLine.env_passed.
  - apply CommandLine.passes_app_l, CommandLine.passes_app_r.
    destruct Windows_NT; apply CommandLine.passes_here.
  - intros mount Hm Hne. rewrite Hm.
    assert (Ht : NSandboxCreator.truthy (Some mount) = true) by now destruct mount.
    assert (Ho : NSandboxCreator.or_else (Some mount) [] = mount) by now destruct mount.
    rewrite Ht, Ho.
    apply CommandLine.passes_app_l, CommandLine.passes_app_l, CommandLine.passes_app_r,
          CommandLine.passes_app_r, CommandLine.passes_app_l, CommandLine.passes_app_r.
    apply CommandLine.passes_here.
  - intros mount Hm Hne. rewrite Hm.
    assert (Ht : NSandboxCreator.truthy (Some mount) = true) by now destruct mount.
    assert (Ho : NSandboxCreator.or_else (Some mount) [] = mount) by now destruct mount.
    rewrite Ht, Ho.
    apply CommandLine.passes_app_l, CommandLine.passes_app_l, CommandLine.passes_app_r,
          CommandLine.passes_app_r, CommandLine.passes_app_l, CommandLine.passes_app_l.
    apply CommandLine.passes_here.
  - eexists. rewrite !app_assoc. reflexivity.
Qed.

(** X13. The comment reaches the process only with the default entry
    point.  In either flavour, when an entry point is given, creation
    options that differ in the comment alone spawn the same process; when
    none is given and there is a comment, the command line ends with the
    default entry point of the flavour followed by the comment. *)
Theorem comment_needs_the_default_entry_point
    (path_join : list jsstring -> jsstring) (cwd : jsstring)
    (LIBFAKETIME_PATH : option jsstring) (Windows_NT : bool)
    (_flavor : NSandboxCreator.flavor)
    (options : NSandboxCreator.ISandboxCreationOptions) :
  let call := NSandboxCreator.spawn path_join cwd Windows_NT
                (NSandboxCreator.create path_join cwd LIBFAKETIME_PATH _flavor options) in
  (NSandboxCreator.truthy (NSandboxCreator.entryPoint options) = true ->
   forall options',
     NSandboxCreator.entryPoint options' = NSandboxCreator.entryPoint options ->
     NSandboxCreator.sandboxMount options' = NSandboxCreator.sandboxMount options ->
     NSandboxCreator.importMount options' = NSandboxCreator.importMount options ->
     NSandboxCreator.docUrl options' = NSandboxCreator.docUrl options ->
     NSandboxCreator.spawn path_join cwd Windows_NT
       (NSandboxCreator.create path_join cwd LIBFAKETIME_PATH _flavor options') = call) /\
  (NSandboxCreator.truthy (NSandboxCreator.entryPoint options) = false ->
   forall comment,
     NSandboxCreator.comment options = Some comment -> comment <> [] ->
     exists front,
       NSandboxCreator.spawn_args call =
       front ++ [match _flavor with
                 | NSandboxCreator.pynbox => js "grist/main.pyc"
                 | NSandboxCreator.unsandboxed => js "grist/main.py"
                 end; comment]).
Proof.
  cbv zeta. split.
  - intros Ht options' He Hs Hi Hd.
    unfold NSandboxCreator.create. cbv zeta. rewrite He, Hs, Hi, Hd, Ht.
    cbn [negb andb]. reflexivity.
  - intros Ht comment Hc Hne.
    assert (Htc : NSandboxCreator.truthy (Some comment) = true) by now destruct comment.
    assert (Hoc : NSandboxCreator.or_else (Some comment) [] = comment) by now destruct comment.
    assert (Hargs : NSandboxCreator.args
                      (NSandboxCreator.create path_join cwd LIBFAKETIME_PATH _flavor options) =
                    [match _flavor with
                     | NSandboxCreator.pynbox => js "grist/main.pyc"
                     | NSandboxCreator.unsandboxed => js "grist/main.py"
                     end; comment]).
    { unfold NSandboxCreator.create. cbv zeta. cbn [NSandboxCreator.args].
      rewrite Ht, Hc, Htc, Hoc. cbn [negb andb].
      destruct (NSandboxCreator.entryPoint options) as [[| c r] |]; try discriminate;
        now destruct _flavor. }
    destruct _flavor.
    + rewrite CommandLine.spawn_sel_ldr by reflexivity.
      cbn [NSandboxCreator.spawn_args]. rewrite Hargs.
      eexists. rewrite !app_assoc. reflexivity.
    + exists []. rewrite <- Hargs. reflexivity.
Qed.

(** X14. What the sanitization of [DOC_URL] leaves behind.  For every
    flavour and all creation options, the [DOC_URL] of the spawned process
    has one character outside [-a-zA-Z0-9_:/?&.] less than [options.docUrl]
    has, or none if that has none, and is shorter by as much: it is free
    of such characters exactly when [options.docUrl] has at most one. *)
Theorem DOC_URL_is_clean_iff_at_most_one_unlisted
    (path_join : list jsstring -> jsstring) (cwd : jsstring)
    (LIBFAKETIME_PATH : option jsstring) (Windows_NT : bool)
    (_flavor : NSandboxCreator.flavor)
    (options : NSandboxCreator.ISandboxCreationOptions) :
  let docUrl := NSandboxCreator.or_else (NSandboxCreator.docUrl options) [] in
  exists DOC_URL,
    NSandboxCreator.lookup_env (js "DOC_URL")
      (NSandboxCreator.spawn_env
         (NSandboxCreator.spawn path_join cwd Windows_NT
            (NSandboxCreator.create path_join cwd LIBFAKETIME_PATH _flavor options))) =
    Some DOC_URL /\
    length (unlisted DOC_URL) = pred (length (unlisted docUrl)) /\
    (length DOC_URL + Nat.min 1 (length (unlisted docUrl)) = length docUrl)%nat /\
    (Forall (fun c => NSandboxCreator.listed c = true) DOC_URL <->
     (length (unlisted docUrl) <= 1)%nat).
Proof.
  intros docUrl. eexists. split.
  { rewrite CreatorFacts.spawn_env_is_env. apply CreatorFacts.DOC_URL_of_create. }
  fold docUrl. split_and!.
  - apply CommandLine.unlisted_replace.
  - apply CommandLine.replace_length.
  - rewrite <- CommandLine.unlisted_nil.
    pose proof (CommandLine.unlisted_replace docUrl) as H.
    destruct (unlisted (NSandboxCreator.replace NSandboxCreator.listed [] docUrl));
      simpl in H; split; intros H'; try discriminate; try reflexivity; lia.
Qed.

(** ** When the outbound stream is closed *)

Section Closing.

Variables CALL DATA EXC : value.
Variable error_toString : error -> jsstring.

Lemma step_closes ev st :
  _isWriteClosed (step CALL DATA EXC error_toString st ev) = _isWriteClosed st || closes ev.
Proof.
  assert (Hsame : forall st', lifecycle st' = lifecycle st ->
                              _isWriteClosed st' = _isWriteClosed st || false).
  { unfold lifecycle. intros st' H. inversion H. now rewrite orb_false_r. }
  assert (Hnotify : forall s st', _isWriteClosed (notify_shutdowns s st') = _isWriteClosed st').
  { intros s st'.
    apply (proj1 (outbound_members _ _ (proj1 (proj2 (notify_shutdowns_frame s st'))))). }
  destruct ev as [f a | | values | | e | e | | id | code sig | code sig | err];
    cbn [step closes].
  - apply Hsame, pyCall_lifecycle.
  - rewrite shutdown_unfold, (proj1 (proj2 (_close_members _))). now rewrite orb_true_r.
  - apply Hsame, _onSandboxData_lifecycle.
  - apply Hsame, _onSandboxClose_lifecycle.
  - apply Hsame. unfold on_read_error. now rewrite _onSandboxClose_lifecycle.
  - apply Hsame. unfold on_write_error. now destruct (_isWriteClosed st).
  - apply Hsame, run_job_lifecycle.
  - rewrite orb_false_r. unfold onTimeout. now destruct (timer_pending id st).
  - rewrite (proj1 (outbound_members _ _ (on_child_close_outbound code sig st))), orb_true_r.
    apply _close_members.
  - unfold on_child_exit. now rewrite Hnotify, orb_false_r.
  - unfold on_child_error. rewrite Hnotify, orb_true_r.
    unfold _onError. members. apply _close_members.
Qed.

Lemma run_closes evs st :
  _isWriteClosed (run CALL DATA EXC error_toString evs st) =
  _isWriteClosed st || existsb closes evs.
Proof.
  unfold run. revert st. induction evs as [| ev evs IH]; intros st; simpl.
  - now rewrite orb_false_r.
  - now rewrite IH, step_closes, orb_assoc.
Qed.

End Closing.

(** X15. The outbound stream is closed by [shutdown()] and by the
    ['close'] and ['error'] events of the process, and by nothing else: in
    every state the controller reaches it is marked closed exactly when one
    of the three has occurred, the ['exit'] event and the end of the
    inbound pipe leaving it open.  From then on an error of the stream is
    not logged; before, it is logged and changes nothing else. *)
Theorem outbound_stream_closed_iff (CALL DATA EXC : value)
    (error_toString : error -> jsstring) (exports : option JSObject)
    (GRIST_THROTTLE_CPU : bool) (evs : list event) (err : jsstring) :
  let st := run CALL DATA EXC error_toString evs (new_NSandbox exports GRIST_THROTTLE_CPU) in
  _isWriteClosed st = existsb closes evs /\
  ends (_streamToSandbox st) = (if existsb closes evs then 1 else 0)%nat /\
  step CALL DATA EXC error_toString st (EvWriteError err) =
    (if existsb closes evs then st
     else log (rawError (js "Sandbox error writing: " ++ err)) st).
Proof.
  intros st.
  assert (Hinv : lifecycle_inv st) by apply run_inv, new_NSandbox_inv.
  assert (Hw : _isWriteClosed st = existsb closes evs) by apply run_closes.
  clearbody st. destruct Hinv as (Hends & _).
  split_and!.
  - exact Hw.
  - now rewrite Hends, Hw.
  - cbn [step]. unfold on_write_error. now rewrite Hw.
Qed.
